(** * grpcp: the server side of a remote file copy over streaming RPC

    A shallow embedding of [server.go]: the upload and download handlers,
    the listener builder, and the operating-system and transport calls they
    make, followed by the properties of the chunked transfer protocol. *)

From Stdlib Require Import ZArith Lia.
From stdpp Require Import base option list strings pretty gmap.

Abbreviation byte := Byte.byte.

(** ** Go values *)

(** Error numbers of the operating system and status codes of the
    transport, as far as the handlers can meet them. *)
Inductive errno :=
| EACCES | ENOENT | EBADF | EIO | ENOSPC | EISDIR
| EADDRINUSE | ECANCELED | EUNAVAILABLE.

(** Go [error] values.  [Errorf msg cause] is
    [fmt.Errorf(msg + ": %w", cause)]; the size mismatch error keeps the two
    numbers that the source formats into its message. *)
#[warnings="-register-all"]
Inductive error :=
| io_EOF
| SysErr (e : errno)
| ErrInvalidKeyPair
| ErrSizeMismatch (expected got : Z)
| Errorf (msg : string) (cause : option error).

(** [int64] arithmetic: two's complement wrap-around on 64 bits. *)
Definition int64_wrap (z : Z) : Z := ((z + 2 ^ 63) mod 2 ^ 64 - 2 ^ 63)%Z.
Definition int64_add (a b : Z) : Z := int64_wrap (a + b).
Definition int64_of_int (n : nat) : Z := int64_wrap (Z.of_nat n).

(** ** Protocol messages (proto/grpcp.proto) *)

Module FileUploadRequest.
Record t := mk { Filename : string; Content : list byte; Size : Z }.
End FileUploadRequest.

Module FileUploadResponse.
Record t := mk { Message : string }.
End FileUploadResponse.

Module FileDownloadRequest.
Record t := mk { Filename : string }.
End FileDownloadRequest.

Module FileDownloadResponse.
Record t := mk { Message : string; Filename : string;
                 Content : list byte; Size : Z }.
End FileDownloadResponse.

(** ** The world outside the handlers *)

(** Flags of [os.OpenFile], with the values of package [os] on Linux. *)
Definition O_RDONLY : Z := 0.
Definition O_WRONLY : Z := 1.
Definition O_RDWR : Z := 2.
Definition O_CREATE : Z := 64.
Definition O_TRUNC : Z := 512.
Definition O_APPEND : Z := 1024.

Definition flag_set (flags flag : Z) : bool := (Z.land flags flag =? flag)%Z.
Definition can_write (flags : Z) : bool := negb (Z.land flags 3 =? O_RDONLY)%Z.
Definition can_read (flags : Z) : bool := negb (Z.land flags 3 =? O_WRONLY)%Z.

(** An open file: the path it was opened on, the flags, the offset. *)
Record file_desc := FileDesc { fd_path : string; fd_flags : Z; fd_off : nat }.

(** A scripted failure of one system call.  A short write stores the first
    [n] bytes before it fails. *)
Inductive fault :=
| FaultErr (e : errno)
| FaultShort (n : nat) (e : errno).

Definition fault_errno (f : fault) : errno :=
  match f with FaultErr e => e | FaultShort _ e => e end.

(** What another process does to the file system while a handler runs. *)
Inductive env_action :=
| EnvIdle
| EnvTruncate (path : string) (size : nat)
| EnvAppend (path : string) (data : list byte).

Inductive read_result :=
| ReadData (chunk : list byte)
| ReadEOF
| ReadErr (e : errno).

(** Every call a handler makes on the operating system or on the stream. *)
Inductive event :=
| EvListen (addr : string)
| EvReadFile (path : string)
| EvOpen (path : string) (flags : Z) (res : errno + nat)
| EvStat (fd : nat)
| EvRead (fd : nat) (res : read_result)
| EvWrite (fd : nat) (data : list byte) (n : nat)
| EvClose (fd : nat)
| EvSend (m : FileDownloadResponse.t)
| EvSendAndClose (m : FileUploadResponse.t).

(** The state of the world: files by path, the table of open descriptors,
    the failures that the next system calls and the next transport calls
    will meet (none once a script is used up), the concurrent changes that
    precede the next reads, what the random source will deliver, and the
    calls made so far, oldest first. *)
Record World := mkWorld {
  files : gmap string (list byte);
  fds : gmap nat file_desc;
  os_faults : list (option fault);
  net_faults : list (option errno);
  interf : list env_action;
  entropy : list (list byte);
  trace : list event
}.

Definition set_files (w : World) (fs : gmap string (list byte)) : World :=
  mkWorld fs (fds w) (os_faults w) (net_faults w) (interf w) (entropy w) (trace w).
Definition set_fds (w : World) (t : gmap nat file_desc) : World :=
  mkWorld (files w) t (os_faults w) (net_faults w) (interf w) (entropy w) (trace w).
Definition set_os_faults (w : World) (s : list (option fault)) : World :=
  mkWorld (files w) (fds w) s (net_faults w) (interf w) (entropy w) (trace w).
Definition set_net_faults (w : World) (s : list (option errno)) : World :=
  mkWorld (files w) (fds w) (os_faults w) s (interf w) (entropy w) (trace w).
Definition set_interf (w : World) (s : list env_action) : World :=
  mkWorld (files w) (fds w) (os_faults w) (net_faults w) s (entropy w) (trace w).
Definition log (w : World) (e : event) : World :=
  mkWorld (files w) (fds w) (os_faults w) (net_faults w) (interf w)
          (entropy w) (trace w ++ [e]).
Definition set_entropy (w : World) (s : list (list byte)) : World :=
  mkWorld (files w) (fds w) (os_faults w) (net_faults w) (interf w) s (trace w).

(** ** A state monad over the world *)

Definition M (A : Type) : Type := World → A * World.

Global Instance M_ret : MRet M := λ A a w, (a, w).
Global Instance M_bind : MBind M := λ A B f m w, let '(a, w') := m w in f a w'.

(** The failure scripted for the next call, if any: a script that is used
    up scripts no failure. *)
Definition next_fault {A} (script : list (option A)) : option A :=
  match script with
  | [] => None
  | f :: _ => f
  end.

Definition next_os_fault : M (option fault) := λ w,
  (next_fault (os_faults w), set_os_faults w (tail (os_faults w))).

Definition next_net_fault : M (option errno) := λ w,
  (next_fault (net_faults w), set_net_faults w (tail (net_faults w))).

Definition file_content (w : World) (path : string) : list byte :=
  default [] (files w !! path).

(** ** System calls *)

(** [os.OpenFile(name, flag, perm)]: a missing file is created when
    [O_CREATE] is set, an existing one is emptied only when [O_TRUNC] is
    set, and the new descriptor, one not in use, starts at offset 0. *)
Definition os_OpenFile (name : string) (flag : Z) (perm : Z)
  : M (option nat * option error) := λ w,
  let '(flt, w) := next_os_fault w in
  let fd := fresh (dom (fds w)) in
  match flt with
  | Some f =>
      ((None, Some (SysErr (fault_errno f))),
       log w (EvOpen name flag (inl (fault_errno f))))
  | None =>
      match files w !! name with
      | None =>
          if flag_set flag O_CREATE then
            ((Some fd, None),
             log (set_fds (set_files w (<[name := []]> (files w)))
                          (<[fd := FileDesc name flag 0]> (fds w)))
                 (EvOpen name flag (inr fd)))
          else
            ((None, Some (SysErr ENOENT)), log w (EvOpen name flag (inl ENOENT)))
      | Some old =>
          let content :=
            if flag_set flag O_TRUNC && can_write flag then [] else old in
          ((Some fd, None),
           log (set_fds (set_files w (<[name := content]> (files w)))
                        (<[fd := FileDesc name flag 0]> (fds w)))
               (EvOpen name flag (inr fd)))
      end
  end.

(** [os.Open(name)] is [OpenFile(name, O_RDONLY, 0)]. *)
Definition os_Open (name : string) : M (option nat * option error) :=
  os_OpenFile name O_RDONLY 0.

(** The content of a file after [data] is stored at offset [off]: bytes
    before the offset and bytes after the stored range stay, and a gap
    between the end of the file and the offset reads as zeros. *)
Definition write_at (off : nat) (data old : list byte) : list byte :=
  take off old ++ replicate (off - length old) Byte.x00
    ++ data ++ drop (off + length data) old.

(** [f.Write(b)]: returns the number of bytes stored, and a non-nil error
    whenever that number is less than [len(b)]. *)
Definition f_Write (fd : nat) (b : list byte) : M (nat * option error) := λ w,
  let '(flt, w) := next_os_fault w in
  match fds w !! fd with
  | None => ((0, Some (SysErr EBADF)), log w (EvWrite fd b 0))
  | Some d =>
      if negb (can_write (fd_flags d)) then
        ((0, Some (SysErr EBADF)), log w (EvWrite fd b 0))
      else
        let stored :=
          match flt with
          | None => b
          | Some (FaultErr _) => []
          | Some (FaultShort n _) => take n b
          end in
        let off :=
          if flag_set (fd_flags d) O_APPEND
          then length (file_content w (fd_path d)) else fd_off d in
        let n := length stored in
        let w' :=
          log (set_fds
                 (set_files w
                    (<[fd_path d :=
                         write_at off stored (file_content w (fd_path d))]>
                       (files w)))
                 (<[fd := FileDesc (fd_path d) (fd_flags d) (off + n)]> (fds w)))
              (EvWrite fd b n) in
        match flt with
        | Some f => ((n, Some (SysErr (fault_errno f))), w')
        | None => ((n, None), w')
        end
  end.

(** [f.Stat()] followed by [st.Size()]. *)
Definition f_Stat (fd : nat) : M (Z * option error) := λ w,
  let '(flt, w) := next_os_fault w in
  let w := log w (EvStat fd) in
  match flt, fds w !! fd with
  | Some f, _ => ((0%Z, Some (SysErr (fault_errno f))), w)
  | None, None => ((0%Z, Some (SysErr EBADF)), w)
  | None, Some d =>
      ((int64_of_int (length (file_content w (fd_path d))), None), w)
  end.

Definition apply_env (a : env_action) (w : World) : World :=
  match a with
  | EnvIdle => w
  | EnvTruncate p n =>
      match files w !! p with
      | None => w
      | Some old =>
          set_files w
            (<[p := take n old ++ replicate (n - length old) Byte.x00]> (files w))
      end
  | EnvAppend p d =>
      match files w !! p with
      | None => w
      | Some old => set_files w (<[p := old ++ d]> (files w))
      end
  end.

(** The concurrent change that lands just before the next read. *)
Definition interfere (w : World) : World :=
  match interf w with
  | [] => w
  | a :: s => apply_env a (set_interf w s)
  end.

(** [f.Read(buf)] with [len(buf) = len]: returns [buf[:n]] and the error.
    At the end of the file it returns [io.EOF]; a read into an empty buffer
    returns 0 bytes and no error. *)
Definition f_Read (fd : nat) (len : nat) : M (list byte * option error) := λ w,
  let w := interfere w in
  let '(flt, w) := next_os_fault w in
  match flt, fds w !! fd with
  | Some f, _ =>
      (([], Some (SysErr (fault_errno f))), log w (EvRead fd (ReadErr (fault_errno f))))
  | None, None => (([], Some (SysErr EBADF)), log w (EvRead fd (ReadErr EBADF)))
  | None, Some d =>
      if negb (can_read (fd_flags d)) then
        (([], Some (SysErr EBADF)), log w (EvRead fd (ReadErr EBADF)))
      else
        let chunk := take len (drop (fd_off d) (file_content w (fd_path d))) in
        match chunk, len with
        | [], S _ => (([], Some io_EOF), log w (EvRead fd ReadEOF))
        | _, _ =>
            ((chunk, None),
             log (set_fds w
                    (<[fd := FileDesc (fd_path d) (fd_flags d)
                                      (fd_off d + length chunk)]> (fds w)))
                 (EvRead fd (ReadData chunk)))
        end
  end.

(** [f.Close()]: the descriptor is released. *)
Definition f_Close (fd : nat) : M unit := λ w,
  (tt, log (set_fds w (delete fd (fds w))) (EvClose fd)).

(** ** Transport calls *)

(** What [stream.Recv()] returns, call after call, on a client-streaming
    RPC: the messages of the client in order, then [io.EOF] once the client
    has closed its side (the end of the list), or an error of the
    transport. *)
Inductive recv_event :=
| RecvMsg (req : FileUploadRequest.t)
| RecvErr (e : errno).

(** [stream.SendAndClose(m)] of the upload stream. *)
Definition stream_SendAndClose (m : FileUploadResponse.t) : M (option error) := λ w,
  let '(flt, w) := next_net_fault w in
  (SysErr <$> flt, log w (EvSendAndClose m)).

(** [stream.Send(m)] of the download stream. *)
Definition stream_Send (m : FileDownloadResponse.t) : M (option error) := λ w,
  let '(flt, w) := next_net_fault w in
  (SysErr <$> flt, log w (EvSend m)).

(** ** The upload handler *)

Definition newUploadResponse (msg : string) : FileUploadResponse.t :=
  FileUploadResponse.mk msg.

(** The variables of [upload] that live across iterations of its loop:
    whether [once] has run, the file, the two counters. *)
Record upload_vars := UploadVars {
  once_done : bool;
  f : option nat;
  totalBytes : Z;
  expectedSize : Z
}.

Definition upload_init : upload_vars := UploadVars false None 0 0.

(** The branch of the loop taken when [Recv] returns [io.EOF]. *)
Definition upload_eof (v : upload_vars) : M (option error) :=
  if negb (totalBytes v =? expectedSize v)%Z then
    mret (Some (ErrSizeMismatch (expectedSize v) (totalBytes v)))
  else
    stream_SendAndClose (newUploadResponse "Upload received successfully").

(** [once.Do(func() { f, err = os.OpenFile(...); expectedSize = req.Size })]:
    the closure runs on the first call only and assigns the variables of the
    enclosing function; [err] is the one that [Recv] has just set to nil. *)
Definition upload_once (req : FileUploadRequest.t) (v : upload_vars)
  : M (upload_vars * option error) :=
  if once_done v then mret (v, None)
  else
    '(fh, err) ← os_OpenFile (FileUploadRequest.Filename req)
                             (Z.lor O_WRONLY O_CREATE) 420;
    mret (UploadVars true fh (totalBytes v) (FileUploadRequest.Size req), err).

(** The loop of [upload], by recursion on what [Recv] is going to return;
    the end of the list is the end of the stream. *)
Fixpoint upload_loop (stream : list recv_event) (v : upload_vars)
  : M (option error) :=
  match stream with
  | [] => upload_eof v
  | RecvErr e :: _ =>
      mret (Some (Errorf "failed to receive file" (Some (SysErr e))))
  | RecvMsg req :: rest =>
      '(v, err) ← upload_once req v;
      match err, f v with
      | None, Some fh =>
          '(n, err) ← f_Write fh (FileUploadRequest.Content req);
          match err with
          | Some e => mret (Some (Errorf "failed to write file" (Some e)))
          | None =>
              upload_loop rest
                (UploadVars (once_done v) (f v)
                            (int64_add (totalBytes v) (int64_of_int n))
                            (expectedSize v))
          end
      | _, _ => mret (Some (Errorf "failed to open file" err))
      end
  end.

Definition upload (stream : list recv_event) : M (option error) :=
  upload_loop stream upload_init.

(** ** The download handler *)

(** How a run of a handler ends: it returns, or its loop never stops. *)
Inductive outcome :=
| Returned (err : option error)
| Diverges.

Definition env_growth (a : env_action) : nat :=
  match a with
  | EnvIdle => 0
  | EnvTruncate _ n => n
  | EnvAppend _ d => length d
  end.

(** A bound on the number of reads that return data: the bytes left after
    the offset, and for every concurrent change still to come one read plus
    the bytes it can add. *)
Definition read_budget (w : World) (fd : nat) : nat :=
  match fds w !! fd with
  | None => 0
  | Some d =>
      length (file_content w (fd_path d)) - fd_off d
      + sum_list (map (λ a, S (env_growth a)) (interf w))
  end.

(** The initial value of the package variable [StreamBufferSize]. *)
Definition StreamBufferSize_default : nat := 1024 * 1024.

Section Download.

(** The package variable [StreamBufferSize], as it stands when the handler
    runs. *)
Variable StreamBufferSize : nat.

(** The loop of [download], cut after [fuel] iterations. *)
Fixpoint download_loop (fuel : nat) (req : FileDownloadRequest.t) (f : nat)
    (expectedBytes totalBytes : Z) : M outcome :=
  match fuel with
  | 0 => mret Diverges
  | S fuel =>
      '(chunk, err) ← f_Read f StreamBufferSize;
      match err with
      | Some io_EOF =>
          if negb (totalBytes =? expectedBytes)%Z then
            mret (Returned (Some (ErrSizeMismatch expectedBytes totalBytes)))
          else mret (Returned None)
      | Some e => mret (Returned (Some (Errorf "failed to read file" (Some e))))
      | None =>
          err ← stream_Send
                  (FileDownloadResponse.mk ""
                     (FileDownloadRequest.Filename req) chunk expectedBytes);
          match err with
          | Some e =>
              mret (Returned (Some (Errorf "failed to send file" (Some e))))
          | None =>
              download_loop fuel req f expectedBytes
                (int64_add totalBytes (int64_of_int (length chunk)))
          end
      end
  end.

(** [download] after [defer f.Close()] has been registered.  The loop gets
    more fuel than the budget of the reads, which is enough for it to return
    whenever the buffer is not empty; with an empty buffer every read
    returns 0 bytes and no error, and the loop of the source never ends. *)
Definition download_opened (req : FileDownloadRequest.t) (f : nat) : M outcome :=
  '(expectedBytes, err) ← f_Stat f;
  match err with
  | Some e => mret (Returned (Some (Errorf "failed to stat file" (Some e))))
  | None =>
      w ← (λ w, (w, w));
      download_loop (S (read_budget w f)) req f expectedBytes 0
  end.

Definition download (req : FileDownloadRequest.t) : M outcome :=
  '(fh, err) ← os_Open (FileDownloadRequest.Filename req);
  match err, fh with
  | None, Some f =>
      r ← download_opened req f;
      _ ← f_Close f;
      mret r
  | _, _ => mret (Returned (Some (Errorf "failed to open file" err)))
  end.

End Download.

(** ** The listener *)

(** The declaration of [ServerOption] is not among the sources: its fields
    are those that [RunCLI] and [newListener] use. *)
Record ServerOption := mkServerOption {
  Listen : string;
  Port : Z;
  TLS : bool;
  CertFile : string;
  KeyFile : string
}.

Inductive tls_Certificate :=
| LoadedKeyPair (certPEM keyPEM : list byte)
| SelfSigned (key : list byte) (subject : string) (validity_days : Z).

Record tls_Config := mkConfig { Certificates : list tls_Certificate }.

Inductive net_Listener :=
| TCPListener (addr : string)
| tls_NewListener (inner : net_Listener) (config : option tls_Config).

(** [net.Listen("tcp", addr)]. *)
Definition net_Listen (addr : string) : M (option net_Listener * option error) := λ w,
  let '(flt, w) := next_os_fault w in
  let w := log w (EvListen addr) in
  match flt with
  | Some f => ((None, Some (SysErr (fault_errno f))), w)
  | None => ((Some (TCPListener addr), None), w)
  end.

(** [os.ReadFile(name)]: the whole content, no descriptor left open. *)
Definition os_ReadFile (name : string) : M (list byte * option error) := λ w,
  let '(flt, w) := next_os_fault w in
  let w := log w (EvReadFile name) in
  match flt, files w !! name with
  | Some f, _ => (([], Some (SysErr (fault_errno f))), w)
  | None, None => (([], Some (SysErr ENOENT)), w)
  | None, Some content => ((content, None), w)
  end.

Definition placeholder_subject : string := "placeholder".
Definition validity_days_one_year : Z := 365.

(** Modelled from the spec: [genSelfSignedTLS] is not among the sources.
    It generates a fresh key pair and a self-signed certificate for a
    placeholder subject, valid for a fixed duration of one year, entirely in
    memory: it draws from the random source and touches no file.  It fails
    with a certificate generation error when the random source does. *)
Definition genSelfSignedTLS : M (option tls_Config * option error) := λ w,
  match entropy w with
  | [] => ((None, Some (Errorf "CertificateGenerationError" (Some (SysErr EIO)))), w)
  | key :: rest =>
      ((Some (mkConfig [SelfSigned key placeholder_subject validity_days_one_year]),
        None),
       set_entropy w rest)
  end.

Section Listener.

(** Whether two file contents are a valid encoding of a key pair. *)
Variable valid_key_pair : list byte → list byte → bool.

(** Modelled from the spec: [genTLS] is not among the sources.  It loads
    and parses the key pair from disk, and fails with a certificate load
    error if either file is missing, unreadable, or not a valid key-pair
    encoding. *)
Definition genTLS (certFile keyFile : string)
  : M (option tls_Config * option error) :=
  '(certPEM, err) ← os_ReadFile certFile;
  match err with
  | Some e => mret (None, Some (Errorf "CertificateLoadError" (Some e)))
  | None =>
      '(keyPEM, err) ← os_ReadFile keyFile;
      match err with
      | Some e => mret (None, Some (Errorf "CertificateLoadError" (Some e)))
      | None =>
          if valid_key_pair certPEM keyPEM then
            mret (Some (mkConfig [LoadedKeyPair certPEM keyPEM]), None)
          else
            mret (None, Some (Errorf "CertificateLoadError"
                                     (Some ErrInvalidKeyPair)))
      end
  end.

Definition newListener (addr : string) (opt : ServerOption)
  : M (option net_Listener * option error) :=
  '(lis, err) ← net_Listen addr;
  match err, lis with
  | None, Some lis =>
      if negb (TLS opt) then mret (Some lis, None)
      else if bool_decide (CertFile opt = "") || bool_decide (KeyFile opt = "")
      then
        '(tlsConfig, err) ← genSelfSignedTLS;
        match err with
        | Some e => mret (None, Some (Errorf "failed to generate tls config" (Some e)))
        | None => mret (Some (tls_NewListener lis tlsConfig), None)
        end
      else
        '(tlsConfig, err) ← genTLS (CertFile opt) (KeyFile opt);
        match err with
        | Some e => mret (None, Some (Errorf "failed to generate tls config" (Some e)))
        | None => mret (Some (tls_NewListener lis tlsConfig), None)
        end
  | _, _ => mret (None, Some (Errorf "failed to listen" err))
  end.

End Listener.

(** ** Reading the trace *)

(** The calls made between two states of the world. *)
Definition new_events (w w' : World) : list event :=
  drop (length (trace w)) (trace w').

Definition opens (tr : list event) : list (string * Z) :=
  omap (λ e, match e with EvOpen p fl _ => Some (p, fl) | _ => None end) tr.

Definition closes (tr : list event) : list nat :=
  omap (λ e, match e with EvClose fd => Some fd | _ => None end) tr.

Definition acks (tr : list event) : list FileUploadResponse.t :=
  omap (λ e, match e with EvSendAndClose m => Some m | _ => None end) tr.

Definition sent (tr : list event) : list FileDownloadResponse.t :=
  omap (λ e, match e with EvSend m => Some m | _ => None end) tr.

Definition data_reads (tr : list event) : list (list byte) :=
  omap (λ e, match e with EvRead _ (ReadData c) => Some c | _ => None end) tr.

Definition eof_seen (tr : list event) : bool :=
  existsb (λ e, match e with EvRead _ ReadEOF => true | _ => false end) tr.

(** What the transport answers to the next send. *)
Definition next_send_result (w : World) : option error :=
  SysErr <$> next_fault (net_faults w).

(** The messages of an upload stream, as the handler accounts for them. *)
Definition declared (msgs : list FileUploadRequest.t) : Z :=
  match msgs with
  | [] => 0
  | m :: _ => FileUploadRequest.Size m
  end.

(** The counter of the loop after the messages [msgs], from [start]. *)
Definition upload_total (msgs : list FileUploadRequest.t) (start : Z) : Z :=
  fold_left
    (λ acc m, int64_add acc (int64_of_int (length (FileUploadRequest.Content m))))
    msgs start.

Definition received (msgs : list FileUploadRequest.t) : Z :=
  upload_total msgs 0.

Definition uploaded (msgs : list FileUploadRequest.t) : list byte :=
  concat (map FileUploadRequest.Content msgs).

(** The number of system calls of an upload session that runs to the end of
    its stream: one open and one write per message. *)
Definition upload_os_calls (msgs : list FileUploadRequest.t) : nat :=
  match msgs with
  | [] => 0
  | _ :: _ => S (length msgs)
  end.

Definition healthy {A} (script : list (option A)) : Prop :=
  Forall (λ o, o = None) script.


(** ** Auxiliary notions of the upload *)

(** The flags of the upload: write only, create, neither truncate nor
    append. *)
Definition upload_flags : Z := Z.lor O_WRONLY O_CREATE.

(** The variables of the loop once [once] has run and the open succeeded. *)
Definition running (fh : nat) (total expected : Z) : upload_vars :=
  UploadVars true (Some fh) total expected.

(** The file of a running upload: the descriptor is at the end of what has
    been written, and the file holds that followed by [suf]. *)
Definition writing (w : World) (fh : nat) (name : string)
    (pre suf : list byte) : Prop :=
  ∃ fl, fds w !! fh = Some (FileDesc name fl (length pre))
        ∧ can_write fl = true
        ∧ flag_set fl O_APPEND = false
        ∧ files w !! name = Some (pre ++ suf).


(** The world after the open of the upload has succeeded on [name]. *)
Definition upload_opened (name : string) (w : World) : World :=
  log (set_fds
         (set_files (set_os_faults w (tail (os_faults w)))
                    (<[name := file_content w name]> (files w)))
         (<[fresh (dom (fds w)) := FileDesc name upload_flags 0]> (fds w)))
      (EvOpen name upload_flags (inr (fresh (dom (fds w))))).

(** ** Auxiliary notions of the download *)

(** The counter of the download loop after the messages sent in [tr],
    from [start]. *)
Definition sent_total (tr : list event) (start : Z) : Z :=
  fold_left
    (λ acc m, int64_add acc (int64_of_int (length (FileDownloadResponse.Content m))))
    (sent tr) start.

(** Every message sent in [tr] carries the chunk that the call just before
    it has read; [prev] is the call before [tr]. *)
Fixpoint send_after_read (prev : option event) (tr : list event) : Prop :=
  match tr with
  | [] => True
  | e :: tr' =>
      match e with
      | EvSend m =>
          ∃ fd, prev = Some (EvRead fd (ReadData (FileDownloadResponse.Content m)))
      | _ => True
      end
      ∧ send_after_read (Some e) tr'
  end.

(** The size that [Stat] reports for the file at [name]. *)
Definition stat_size (w : World) (name : string) : Z :=
  int64_of_int (length (file_content w name)).

(** ** Auxiliary notions of the listener *)

(** The listener builder has given up on a failure of kind [kind] of the
    certificate provisioner. *)
Definition tls_config_failure (kind : string) (err : option error) : Prop :=
  ∃ cause,
    err = Some (Errorf "failed to generate tls config"
                       (Some (Errorf kind (Some cause)))).

Definition files_read (tr : list event) : list string :=
  omap (λ e, match e with EvReadFile p => Some p | _ => None end) tr.

(** ** Auxiliary notions of further properties *)

(** The same stream with the filenames of its messages replaced, in order,
    by those of [names]. *)
Fixpoint set_names (names : list string) (stream : list recv_event)
  : list recv_event :=
  match stream with
  | [] => []
  | RecvMsg m :: rest =>
      match names with
      | [] => stream
      | s :: names =>
          RecvMsg (FileUploadRequest.mk s (FileUploadRequest.Content m)
                                        (FileUploadRequest.Size m))
            :: set_names names rest
      end
  | e :: rest => e :: set_names names rest
  end.

(** The bytes that a download session has put on the stream. *)
Definition downloaded (tr : list event) : list byte :=
  concat (map FileDownloadResponse.Content (sent tr)).

(** The position of the first failure in a script, if it has one. *)
Fixpoint first_fault {A} (script : list (option A)) : option nat :=
  match script with
  | [] => None
  | Some _ :: _ => Some 0
  | None :: rest => S <$> first_fault rest
  end.

(** ** The server and the command line *)

Section Server.

Variable valid_key_pair : list byte → list byte → bool.

(** [Serve] of [grpc.Server], of the RPC library: it accepts connections on
    the listener until the server stops, and returns why it stopped. *)
Variable Serve : option net_Listener → M (option error).

Definition RunServer (opt : ServerOption) : M (option error) :=
  let addr := Listen opt +:+ ":" +:+ pretty (Port opt) in
  '(lis, err) ← newListener valid_key_pair addr opt;
  match err with
  | Some e => mret (Some (Errorf "failed to create listener" (Some e)))
  | None =>
      err ← Serve lis;
      match err with
      | Some e => mret (Some (Errorf "failed to serve" (Some e)))
      | None => mret None
      end
  end.

End Server.

(** The flags and arguments of the command line, as [kong.Parse] fills
    them. *)
Module CLI.
Record t := mk {
  Host : string;
  Port : Z;
  Server : bool;
  Quiet : bool;
  Debug : bool;
  Kill : bool;
  Src : string;
  Dest : string
}.
End CLI.

(** The declaration of [ClientOption] is not among the sources: its fields
    are those that [RunCLI] sets. *)
Module ClientOption.
Record t := mk { Host : string; Port : Z; Quiet : bool }.
End ClientOption.

Inductive slog_Level := LevelDebug | LevelInfo | LevelWarn.

Section CommandLine.

Variable valid_key_pair : list byte → list byte → bool.
Variable Serve : option net_Listener → M (option error).

(** The client, which is not among the sources: its constructor and the
    two methods that [RunCLI] calls. *)
Variable Client : Type.
Variable NewClient : ClientOption.t → Client.
Variable client_Shutdown : Client → M (option error).
Variable client_Copy : Client → string → string → M (option error).

(** [RunCLI], on the parsed command line: the level that it gives to the
    logger, and what it returns. *)
Definition RunCLI (cli : CLI.t) : M (slog_Level * option error) :=
  let level :=
    if CLI.Quiet cli then LevelWarn
    else if CLI.Debug cli then LevelDebug
    else LevelInfo in
  err ← (if CLI.Server cli then
           RunServer valid_key_pair Serve
             (mkServerOption (CLI.Host cli) (CLI.Port cli) false "" "")
         else if CLI.Kill cli then
           client_Shutdown
             (NewClient (ClientOption.mk (CLI.Host cli) (CLI.Port cli)
                                         (CLI.Quiet cli)))
         else if negb (bool_decide (CLI.Src cli = ""))
                 && negb (bool_decide (CLI.Dest cli = "")) then
           client_Copy
             (NewClient (ClientOption.mk "" (CLI.Port cli) (CLI.Quiet cli)))
             (CLI.Src cli) (CLI.Dest cli)
         else
           mret (Some (Errorf "expected: grpcp <src> <dest> or grpcp --server"
                              None)));
  mret (level, err).

End CommandLine.

(** * Properties *)

Ltac unfold_M := unfold mbind, M_bind, mret, M_ret in *.

(** ** Arithmetic on [int64] *)

Lemma int64_wrap_small (z : Z) :
  (- 2 ^ 63 ≤ z < 2 ^ 63)%Z → int64_wrap z = z.
Proof.
  intros Hz. unfold int64_wrap.
  rewrite Z.mod_small by lia. lia.
Qed.

Lemma int64_wrap_add (a b : Z) :
  int64_wrap (int64_wrap a + int64_wrap b) = int64_wrap (a + b).
Proof.
  unfold int64_wrap. f_equal.
  pose proof (Z.div_mod (a + 2 ^ 63) (2 ^ 64) ltac:(lia)) as Ha.
  pose proof (Z.div_mod (b + 2 ^ 63) (2 ^ 64) ltac:(lia)) as Hb.
  set (qa := ((a + 2 ^ 63) / 2 ^ 64)%Z) in *.
  set (qb := ((b + 2 ^ 63) / 2 ^ 64)%Z) in *.
  set (ra := ((a + 2 ^ 63) mod 2 ^ 64)%Z) in *.
  set (rb := ((b + 2 ^ 63) mod 2 ^ 64)%Z) in *.
  replace (ra - 2 ^ 63 + (rb - 2 ^ 63) + 2 ^ 63)%Z
    with (a + b + 2 ^ 63 + (- qa - qb) * 2 ^ 64)%Z by lia.
  apply Z_mod_plus_full.
Qed.

Lemma int64_add_wrap_l (a : Z) (b : nat) :
  int64_add (int64_wrap a) (int64_of_int b) = int64_wrap (a + Z.of_nat b).
Proof. apply int64_wrap_add. Qed.

(** ** What the calls do to the world *)

Lemma new_events_app (w w' : World) (tr : list event) :
  trace w' = trace w ++ tr → new_events w w' = tr.
Proof. unfold new_events. intros ->. by rewrite drop_app_length. Qed.

Lemma f_Write_trace fd b w n err w' :
  f_Write fd b w = ((n, err), w') → trace w' = trace w ++ [EvWrite fd b n].
Proof.
  unfold f_Write, next_os_fault. simpl. intros H.
  destruct (fds w !! fd) as [d|]; [| by inversion H].
  destruct (negb (can_write (fd_flags d))); [by inversion H |].
  destruct (next_fault (os_faults w)); inversion H; subst; reflexivity.
Qed.

Lemma stream_SendAndClose_eq m w :
  stream_SendAndClose m w
  = (next_send_result w,
     log (set_net_faults w (tail (net_faults w))) (EvSendAndClose m)).
Proof. reflexivity. Qed.

(** The open of the upload fails only by a failure of the system: the file
    is created when it is missing and keeps its content when it is there. *)
Lemma os_OpenFile_upload (name : string) (w : World) :
  os_OpenFile name upload_flags 420 w
  = match next_fault (os_faults w) with
    | Some f =>
        ((None, Some (SysErr (fault_errno f))),
         log (set_os_faults w (tail (os_faults w)))
             (EvOpen name upload_flags (inl (fault_errno f))))
    | None =>
        let fh := fresh (dom (fds w)) in
        ((Some fh, None),
         log (set_fds
                (set_files (set_os_faults w (tail (os_faults w)))
                           (<[name := file_content w name]> (files w)))
                (<[fh := FileDesc name upload_flags 0]> (fds w)))
             (EvOpen name upload_flags (inr fh)))
    end.
Proof.
  unfold os_OpenFile, next_os_fault, file_content. simpl.
  destruct (next_fault (os_faults w)); [reflexivity |].
  destruct (files w !! name); reflexivity.
Qed.

(** A write through a descriptor that is open for writing without
    [O_APPEND]. *)
Lemma f_Write_eq (fh : nat) (b : list byte) (w : World) (d : file_desc) :
  fds w !! fh = Some d →
  can_write (fd_flags d) = true →
  flag_set (fd_flags d) O_APPEND = false →
  f_Write fh b w
  = let stored :=
      match next_fault (os_faults w) with
      | None => b
      | Some (FaultErr _) => []
      | Some (FaultShort n _) => take n b
      end in
    ((length stored, SysErr ∘ fault_errno <$> next_fault (os_faults w)),
     log (set_fds
            (set_files (set_os_faults w (tail (os_faults w)))
               (<[fd_path d :=
                    write_at (fd_off d) stored (file_content w (fd_path d))]>
                  (files w)))
            (<[fh := FileDesc (fd_path d) (fd_flags d)
                              (fd_off d + length stored)]> (fds w)))
         (EvWrite fh b (length stored))).
Proof.
  intros Hfd Hw Happ. unfold f_Write, next_os_fault. simpl.
  rewrite Hfd, Hw, Happ. simpl.
  destruct (next_fault (os_faults w)); reflexivity.
Qed.

Lemma write_at_end (pre suf b : list byte) :
  write_at (length pre) b (pre ++ suf) = (pre ++ b) ++ drop (length b) suf.
Proof.
  unfold write_at.
  rewrite take_app_length, length_app.
  replace (length pre - (length pre + length suf)) with 0 by lia.
  rewrite drop_app_add'; [| done]. simpl.
  by rewrite <- app_assoc.
Qed.

(** ** The loop of the upload once the file is open *)

Lemma writing_step w fh name pre suf b :
  writing w fh name pre suf →
  next_fault (os_faults w) = None →
  ∃ w1, f_Write fh b w = ((length b, None), w1)
        ∧ writing w1 fh name (pre ++ b) (drop (length b) suf)
        ∧ os_faults w1 = tail (os_faults w)
        ∧ net_faults w1 = net_faults w
        ∧ trace w1 = trace w ++ [EvWrite fh b (length b)].
Proof.
  intros (fl & Hfd & Hw & Happ & Hfile) Hflt.
  eexists. split.
  { rewrite (f_Write_eq _ _ _ _ Hfd Hw Happ). rewrite Hflt. simpl. reflexivity. }
  split; [| done].
  exists fl. simpl. rewrite lookup_insert_eq, lookup_insert_eq.
  unfold file_content. rewrite Hfile. simpl.
  rewrite write_at_end, length_app. done.
Qed.

Lemma writing_fault w fh name pre suf b flt :
  writing w fh name pre suf →
  next_fault (os_faults w) = Some flt →
  ∃ n w1, f_Write fh b w = ((n, Some (SysErr (fault_errno flt))), w1).
Proof.
  intros (fl & Hfd & Hw & Happ & Hfile) Hflt.
  rewrite (f_Write_eq _ _ _ _ Hfd Hw Happ), Hflt. simpl. eauto.
Qed.

Lemma writing_frame w w' fh name pre suf :
  files w' = files w → fds w' = fds w →
  writing w fh name pre suf → writing w' fh name pre suf.
Proof. intros Hf Hd (fl & H). exists fl. by rewrite Hf, Hd. Qed.

Lemma upload_loop_running req rest fh total expected w :
  upload_loop (RecvMsg req :: rest) (running fh total expected) w
  = let '((n, err), w1) := f_Write fh (FileUploadRequest.Content req) w in
    match err with
    | Some e => (Some (Errorf "failed to write file" (Some e)), w1)
    | None =>
        upload_loop rest
          (running fh (int64_add total (int64_of_int n)) expected) w1
    end.
Proof.
  simpl. unfold_M. simpl.
  destruct (f_Write fh (FileUploadRequest.Content req) w) as [[n [e|]] w1];
    reflexivity.
Qed.

Lemma healthy_next {A} (n : nat) (script : list (option A)) :
  healthy (take (S n) script) →
  next_fault script = None ∧ healthy (take n (tail script)).
Proof.
  destruct script as [| o s]; simpl.
  - intros _. split; [done |]. destruct n; constructor.
  - intros H. inversion H; subst. done.
Qed.

Lemma uploaded_cons m msgs :
  uploaded (m :: msgs) = FileUploadRequest.Content m ++ uploaded msgs.
Proof. reflexivity. Qed.

(** With no failure of the system among its writes, the loop reaches the
    end of the stream, having counted and stored every chunk in order. *)
Lemma upload_loop_healthy fh name msgs :
  ∀ total expected w pre suf,
    writing w fh name pre suf →
    healthy (take (length msgs) (os_faults w)) →
    ∃ w1 tr,
      upload_loop (map RecvMsg msgs) (running fh total expected) w
      = upload_eof (running fh (upload_total msgs total) expected) w1
      ∧ writing w1 fh name (pre ++ uploaded msgs)
                (drop (length (uploaded msgs)) suf)
      ∧ net_faults w1 = net_faults w
      ∧ trace w1 = trace w ++ tr
      ∧ acks tr = [].
Proof.
  induction msgs as [| m msgs IH]; intros total expected w pre suf Hw Hh.
  - exists w, []. simpl. rewrite !app_nil_r, drop_0. done.
  - simpl in Hh. apply healthy_next in Hh as [Hnone Hh].
    destruct (writing_step _ _ _ _ _ (FileUploadRequest.Content m) Hw Hnone)
      as (w1 & Hwrite & Hw1 & Hos & Hnet & Htr).
    rewrite <- Hos in Hh.
    destruct (IH (int64_add total
                    (int64_of_int (length (FileUploadRequest.Content m))))
                 expected w1 _ _ Hw1 Hh)
      as (w2 & tr & Hloop & Hw2 & Hnet2 & Htr2 & Hacks).
    exists w2, (EvWrite fh (FileUploadRequest.Content m)
                        (length (FileUploadRequest.Content m)) :: tr).
    split.
    { change (map RecvMsg (m :: msgs)) with (RecvMsg m :: map RecvMsg msgs).
      rewrite upload_loop_running, Hwrite. exact Hloop. }
    rewrite uploaded_cons, length_app, <- drop_drop, app_assoc.
    split; [exact Hw2 |].
    split; [congruence |].
    split; [| exact Hacks].
    rewrite Htr2, Htr, <- app_assoc. reflexivity.
Qed.

(** When the loop ends in success, every chunk has been stored in order
    after what was there, and the count equals the declared size. *)
Lemma upload_loop_success fh name msgs :
  ∀ total expected w w' pre suf,
    writing w fh name pre suf →
    upload_loop (map RecvMsg msgs) (running fh total expected) w = (None, w') →
    writing w' fh name (pre ++ uploaded msgs)
            (drop (length (uploaded msgs)) suf)
    ∧ upload_total msgs total = expected.
Proof.
  induction msgs as [| m msgs IH]; intros total expected w w' pre suf Hw Hrun.
  - simpl in Hrun. unfold upload_eof in Hrun. simpl in Hrun.
    destruct (Z.eqb_spec total expected) as [Heq | Hne]; simpl in Hrun.
    + rewrite stream_SendAndClose_eq in Hrun. inversion Hrun; subst.
      simpl. rewrite app_nil_r, drop_0. split; [| done].
      eapply writing_frame; [| | exact Hw]; reflexivity.
    + unfold_M. inversion Hrun.
  - change (map RecvMsg (m :: msgs)) with (RecvMsg m :: map RecvMsg msgs) in Hrun.
    rewrite upload_loop_running in Hrun.
    destruct (next_fault (os_faults w)) as [flt |] eqn:Hflt.
    + destruct (writing_fault _ _ _ _ _ (FileUploadRequest.Content m) _ Hw Hflt)
        as (n & w1 & Hwrite).
      rewrite Hwrite in Hrun. inversion Hrun.
    + destruct (writing_step _ _ _ _ _ (FileUploadRequest.Content m) Hw Hflt)
        as (w1 & Hwrite & Hw1 & _).
      rewrite Hwrite in Hrun.
      apply (IH _ _ _ _ _ _ Hw1) in Hrun as [Hw' Htot].
      rewrite uploaded_cons, length_app, <- drop_drop, app_assoc. done.
Qed.

(** ** The first message of an upload *)

Lemma upload_first first rest w :
  upload (RecvMsg first :: rest) w
  = match next_fault (os_faults w) with
    | Some flt =>
        (Some (Errorf "failed to open file" (Some (SysErr (fault_errno flt)))),
         log (set_os_faults w (tail (os_faults w)))
             (EvOpen (FileUploadRequest.Filename first) upload_flags
                     (inl (fault_errno flt))))
    | None =>
        upload_loop (RecvMsg first :: rest)
          (running (fresh (dom (fds w))) 0 (FileUploadRequest.Size first))
          (upload_opened (FileUploadRequest.Filename first) w)
    end.
Proof.
  unfold upload. simpl. unfold upload_once. simpl. unfold_M.
  change (Z.lor O_WRONLY O_CREATE) with upload_flags.
  rewrite os_OpenFile_upload.
  destruct (next_fault (os_faults w)); reflexivity.
Qed.

Lemma writing_opened name w :
  writing (upload_opened name w) (fresh (dom (fds w))) name []
          (file_content w name).
Proof.
  exists upload_flags. simpl. rewrite !lookup_insert_eq. done.
Qed.

Lemma upload_total_wrap msgs :
  ∀ a, upload_total msgs (int64_wrap a)
       = int64_wrap (a + Z.of_nat (length (uploaded msgs))).
Proof.
  induction msgs as [| m msgs IH]; intros a; simpl.
  - by rewrite Z.add_0_r.
  - rewrite int64_add_wrap_l, IH, uploaded_cons, length_app. f_equal. lia.
Qed.

Lemma received_wrap msgs :
  received msgs = int64_wrap (Z.of_nat (length (uploaded msgs))).
Proof.
  unfold received. change 0%Z with (int64_wrap 0). by rewrite upload_total_wrap.
Qed.

(** ** The calls of the loop once the file is open *)

(** After [once] has run the loop opens nothing and closes nothing. *)
Lemma upload_loop_trace stream :
  ∀ v w r w',
    once_done v = true →
    upload_loop stream v w = (r, w') →
    ∃ tr, trace w' = trace w ++ tr ∧ opens tr = [] ∧ closes tr = [].
Proof.
  induction stream as [| [req | e] rest IH]; intros v w r w' Hv Hrun.
  - simpl in Hrun. unfold upload_eof in Hrun.
    destruct (negb _) in Hrun.
    + unfold_M. inversion Hrun; subst. exists []. by rewrite app_nil_r.
    + rewrite stream_SendAndClose_eq in Hrun. inversion Hrun; subst.
      eexists. split; [simpl; reflexivity | done].
  - simpl in Hrun. unfold upload_once in Hrun. rewrite Hv in Hrun.
    unfold_M. simpl in Hrun.
    destruct (f v) as [fh |] eqn:Hf.
    + destruct (f_Write fh (FileUploadRequest.Content req) w)
        as [[n [err |]] w1] eqn:Hwrite.
      * inversion Hrun; subst.
        apply f_Write_trace in Hwrite. eexists. split; [exact Hwrite | done].
      * apply f_Write_trace in Hwrite.
        apply IH in Hrun as (tr & Htr & Ho & Hc); [| done].
        exists (EvWrite fh (FileUploadRequest.Content req) n :: tr).
        rewrite Htr, Hwrite, <- app_assoc. done.
    + inversion Hrun; subst. exists []. by rewrite app_nil_r.
  - simpl in Hrun. unfold_M. inversion Hrun; subst.
    exists []. by rewrite app_nil_r.
Qed.


(** ** The upload handler *)

Lemma upload_nothing_received (w : World) :
  upload [] w
  = (next_send_result w,
     log (set_net_faults w (tail (net_faults w)))
         (EvSendAndClose (newUploadResponse "Upload received successfully"))).
Proof. reflexivity. Qed.

(** C10. An upload stream that ends before it delivers any message gets
    the success acknowledgement, with a byte count of 0, and the handler
    makes no other call: no file is opened or created, the files and the
    open descriptors are what they were. *)
Theorem upload_empty_stream (w : World) :
  let '(r, w') := upload [] w in
  r = next_send_result w
  ∧ new_events w w'
    = [EvSendAndClose (newUploadResponse "Upload received successfully")]
  ∧ opens (new_events w w') = []
  ∧ files w' = files w
  ∧ fds w' = fds w
  ∧ received [] = 0%Z.
Proof.
  rewrite upload_nothing_received.
  rewrite (new_events_app w _ [EvSendAndClose
             (newUploadResponse "Upload received successfully")])
    by reflexivity.
  done.
Qed.

(** An upload that the file system does not interrupt reaches the end of
    its stream with the count of the bytes received and the size declared
    by the first message. *)
Lemma upload_reaches_eof (msgs : list FileUploadRequest.t) (w : World) :
  healthy (take (upload_os_calls msgs) (os_faults w)) →
  ∃ fh_once w1 tr,
    upload (map RecvMsg msgs) w
    = upload_eof (UploadVars fh_once.2 fh_once.1 (received msgs) (declared msgs)) w1
    ∧ net_faults w1 = net_faults w
    ∧ trace w1 = trace w ++ tr
    ∧ acks tr = [].
Proof.
  intros Hh. destruct msgs as [| m rest].
  - exists (None, false), w, []. by rewrite app_nil_r.
  - change (map RecvMsg (m :: rest)) with (RecvMsg m :: map RecvMsg rest).
    rewrite upload_first.
    unfold upload_os_calls in Hh. apply healthy_next in Hh as [Hnone Hh].
    rewrite Hnone.
    change (RecvMsg m :: map RecvMsg rest) with (map RecvMsg (m :: rest)).
    destruct (upload_loop_healthy _ _ (m :: rest) 0 (FileUploadRequest.Size m)
                _ _ _ (writing_opened (FileUploadRequest.Filename m) w) Hh)
      as (w2 & tr & Hloop & _ & Hnet & Htr & Hacks).
    exists (Some (fresh (dom (fds w))), true), w2,
      (EvOpen (FileUploadRequest.Filename m) upload_flags
              (inr (fresh (dom (fds w)))) :: tr).
    split; [exact Hloop |]. split; [exact Hnet |].
    split; [| exact Hacks].
    rewrite Htr. simpl. by rewrite <- app_assoc.
Qed.

(** C2. In an upload session that the file system does not interrupt, the
    end of the stream makes the handler compare its running total with the
    size declared by the first message: when they are equal it sends the
    success acknowledgement and returns what the transport answers to it
    (nil on a working transport), and when they differ it returns the size
    mismatch error with the expected and the actual count and sends no
    acknowledgement. *)
Theorem upload_end_of_stream (msgs : list FileUploadRequest.t) (w : World) :
  healthy (take (upload_os_calls msgs) (os_faults w)) →
  let '(r, w') := upload (map RecvMsg msgs) w in
  if decide (received msgs = declared msgs) then
    r = next_send_result w
    ∧ acks (new_events w w')
      = [newUploadResponse "Upload received successfully"]
  else
    r = Some (ErrSizeMismatch (declared msgs) (received msgs))
    ∧ acks (new_events w w') = [].
Proof.
  intros Hh.
  destruct (upload_reaches_eof msgs w Hh)
    as (v & w1 & tr & -> & Hnet & Htr & Hacks).
  unfold upload_eof. cbn [totalBytes expectedSize].
  destruct (Z.eqb_spec (received msgs) (declared msgs)) as [Heq | Hne];
    cbn [negb]; cbv iota.
  - rewrite stream_SendAndClose_eq. cbv iota beta.
    rewrite decide_True by done. split.
    + unfold next_send_result. by rewrite Hnet.
    + erewrite new_events_app.
      2:{ simpl. rewrite Htr, <- app_assoc. reflexivity. }
      unfold acks in *. rewrite omap_app, Hacks. done.
  - unfold_M. cbv iota beta. rewrite decide_False by done.
    split; [done |]. by rewrite (new_events_app _ _ _ Htr).
Qed.

Lemma upload_end_of_stream_witness :
  let msgs := [FileUploadRequest.mk "a" [Byte.x41; Byte.x42] 2;
               FileUploadRequest.mk "a" [Byte.x43] 0] in
  let w := mkWorld ∅ ∅ [] [] [] [] [] in
  let '(r, w') := upload (map RecvMsg msgs) w in
  if decide (received msgs = declared msgs) then
    r = next_send_result w
    ∧ acks (new_events w w')
      = [newUploadResponse "Upload received successfully"]
  else
    r = Some (ErrSizeMismatch (declared msgs) (received msgs))
    ∧ acks (new_events w w') = [].
Proof.
  apply (upload_end_of_stream
           [FileUploadRequest.mk "a" [Byte.x41; Byte.x42] 2;
            FileUploadRequest.mk "a" [Byte.x43] 0]
           (mkWorld ∅ ∅ [] [] [] [] [])).
  constructor.
Defined.

(** C1, as stated, fails.  A file that is longer than the upload keeps its
    tail: uploading the single byte "0", declared size 1, over a file that
    holds "ABC" succeeds and leaves "0BC", of size 3. *)
Lemma upload_keeps_longer_file :
  let w := mkWorld {[ "a" := [Byte.x41; Byte.x42; Byte.x43] ]} ∅ [] [] [] [] [] in
  let msgs := [FileUploadRequest.mk "a" [Byte.x30] 1] in
  ∃ w', upload (map RecvMsg msgs) w = (None, w')
        ∧ uploaded msgs = [Byte.x30]
        ∧ files w' !! "a" = Some [Byte.x30; Byte.x42; Byte.x43]
        ∧ files w' !! "a" ≠ Some (uploaded msgs)
        ∧ length (file_content w' "a") ≠ 1.
Proof.
  eexists. split; [vm_compute; reflexivity |].
  repeat split; vm_compute; congruence.
Qed.

(** C1, amended. After the upload handler has returned success for a file
    of size S, the destination file exists and holds the uploaded bytes
    followed by the bytes that it held beyond offset S before the upload
    began, and S is the declared size; so its content is byte for byte the
    uploaded bytes, and its size exactly S, when the destination was absent
    or held at most S bytes before. *)
Theorem upload_success_content
    (first : FileUploadRequest.t) (rest : list FileUploadRequest.t)
    (w w' : World) :
  let msgs := first :: rest in
  let name := FileUploadRequest.Filename first in
  (Z.of_nat (length (uploaded msgs)) < 2 ^ 63)%Z →
  upload (map RecvMsg msgs) w = (None, w') →
  files w' !! name
  = Some (uploaded msgs ++ drop (length (uploaded msgs)) (file_content w name))
  ∧ FileUploadRequest.Size first = Z.of_nat (length (uploaded msgs))
  ∧ (length (file_content w name) ≤ length (uploaded msgs) →
     files w' !! name = Some (uploaded msgs)
     ∧ length (file_content w' name) = length (uploaded msgs)).
Proof.
  intros msgs name Hsize Hrun.
  change (map RecvMsg msgs) with (RecvMsg first :: map RecvMsg rest) in Hrun.
  rewrite upload_first in Hrun.
  destruct (next_fault (os_faults w)); [inversion Hrun |].
  change (RecvMsg first :: map RecvMsg rest) with (map RecvMsg msgs) in Hrun.
  apply (upload_loop_success _ name msgs _ _ _ _ [] (file_content w name)
           (writing_opened name w)) in Hrun
    as [(fl & _ & _ & _ & Hfile) Htotal].
  simpl app in Hfile.
  fold (received msgs) in Htotal. rewrite received_wrap in Htotal.
  rewrite int64_wrap_small in Htotal by lia.
  split; [exact Hfile |]. split; [done |].
  intros Hshort. unfold file_content. rewrite Hfile.
  rewrite drop_ge, app_nil_r by lia. done.
Qed.

Lemma upload_success_content_witness :
  let first := FileUploadRequest.mk "a" [Byte.x30; Byte.x31] 3 in
  let rest := [FileUploadRequest.mk "b" [Byte.x32] 7] in
  let w := mkWorld {[ "a" := [Byte.x41; Byte.x42; Byte.x43; Byte.x44] ]}
                   ∅ [] [] [] [] [] in
  let w' := (upload (map RecvMsg (first :: rest)) w).2 in
  files w' !! "a" = Some ([Byte.x30; Byte.x31; Byte.x32] ++ [Byte.x44])
  ∧ 3%Z = Z.of_nat 3.
Proof.
  intros first rest w w'.
  destruct (upload_success_content first rest w w') as (H1 & H2 & _).
  - vm_compute. reflexivity.
  - vm_compute. reflexivity.
  - split; [exact H1 | exact H2].
Defined.


(** Whatever the stream, the upload handler closes no descriptor. *)
Lemma upload_never_closes (stream : list recv_event) (w : World) :
  closes (new_events w (upload stream w).2) = [].
Proof.
  destruct stream as [| [first | e] rest].
  - rewrite upload_nothing_received. simpl.
    erewrite new_events_app; [| simpl; reflexivity]. reflexivity.
  - rewrite upload_first.
    destruct (next_fault (os_faults w)) as [flt |].
    + simpl. erewrite new_events_app; [| simpl; reflexivity]. reflexivity.
    + destruct (upload_loop _ _ _) as [r w'] eqn:Hrun.
      apply upload_loop_trace in Hrun as (tr & Htr & _ & Hc); [| done].
      simpl. erewrite new_events_app.
      2:{ rewrite Htr. simpl. rewrite <- app_assoc. reflexivity. }
      exact Hc.
  - simpl. unfold new_events. by rewrite drop_all.
Qed.

Lemma fresh_fd_free (w : World) : fds w !! fresh (dom (fds w)) = None.
Proof. apply not_elem_of_dom, is_fresh. Qed.

Lemma f_Write_keeps (fd : nat) (b : list byte) (w : World) (k : nat) :
  is_Some (fds w !! k) → is_Some (fds (f_Write fd b w).2 !! k).
Proof.
  intros Hk. unfold f_Write, next_os_fault. simpl.
  destruct (fds w !! fd) as [d |]; [| exact Hk].
  destruct (negb (can_write (fd_flags d))); [exact Hk |].
  destruct (next_fault (os_faults w)); simpl;
    apply lookup_insert_is_Some'; by right.
Qed.

Lemma upload_loop_keeps (stream : list recv_event) :
  ∀ v w k,
    is_Some (fds w !! k) → is_Some (fds (upload_loop stream v w).2 !! k).
Proof.
  induction stream as [| [req | e] rest IH]; intros v w k Hk.
  - simpl. unfold upload_eof. destruct (negb _); exact Hk.
  - simpl. unfold upload_once. unfold_M.
    destruct (once_done v).
    + simpl. destruct (f v) as [fh |]; [| exact Hk].
      pose proof (f_Write_keeps fh (FileUploadRequest.Content req) w k Hk) as Hw.
      destruct (f_Write fh (FileUploadRequest.Content req) w)
        as [[n [err |]] w1]; [exact Hw |].
      by apply IH.
    + change (Z.lor O_WRONLY O_CREATE) with upload_flags.
      rewrite os_OpenFile_upload.
      destruct (next_fault (os_faults w)); [exact Hk |].
      cbv zeta. cbn [f].
      set (w1 := log _ _).
      assert (Hk1 : is_Some (fds w1 !! k))
        by (simpl; apply lookup_insert_is_Some'; by right).
      pose proof (f_Write_keeps (fresh (dom (fds w)))
                    (FileUploadRequest.Content req) w1 k Hk1) as Hw.
      destruct (f_Write _ _ w1) as [[n [err |]] w2]; [exact Hw |].
      by apply IH.
  - exact Hk.
Qed.

(** Whenever the open of an upload has succeeded, the descriptor that it
    returned is still open when the handler returns, however it returns. *)
Lemma upload_keeps_descriptor (first : FileUploadRequest.t)
    (rest : list recv_event) (w : World) :
  next_fault (os_faults w) = None →
  fds w !! fresh (dom (fds w)) = None
  ∧ is_Some (fds (upload (RecvMsg first :: rest) w).2 !! fresh (dom (fds w))).
Proof.
  intros Hflt. split; [apply fresh_fd_free |].
  rewrite upload_first, Hflt.
  apply upload_loop_keeps. simpl. rewrite lookup_insert_eq. by eexists.
Qed.

(** C4, the upload side. The handler opens the destination and returns
    success with the descriptor still open: nothing in [upload] closes the
    file, where [download] defers the close. *)
Theorem upload_leaves_file_open :
  let w := mkWorld ∅ ∅ [] [] [] [] [] in
  let '(r, w') := upload [RecvMsg (FileUploadRequest.mk "a" [Byte.x41] 1)] w in
  r = None
  ∧ fds w' !! 0 = Some (FileDesc "a" (Z.lor O_WRONLY O_CREATE) 1)
  ∧ closes (trace w') = [].
Proof. vm_compute. done. Qed.

(** ** What the calls of the download do to the world *)

Lemma interfere_frame (w : World) :
  fds (interfere w) = fds w
  ∧ os_faults (interfere w) = os_faults w
  ∧ net_faults (interfere w) = net_faults w
  ∧ trace (interfere w) = trace w
  ∧ interf (interfere w) = tail (interf w).
Proof.
  unfold interfere. destruct (interf w) as [| a s] eqn:Hi; [by rewrite Hi |].
  destruct a as [| p n | p d]; simpl.
  - done.
  - destruct (files w !! p); done.
  - destruct (files w !! p); done.
Qed.

Lemma apply_env_length (a : env_action) (w : World) (p : string) :
  length (file_content (apply_env a w) p)
  ≤ length (file_content w p) + env_growth a.
Proof.
  unfold file_content.
  destruct a as [| q n | q d]; simpl; [lia | |].
  - destruct (files w !! q) as [old |] eqn:Hq; [| lia]. simpl.
    destruct (decide (q = p)) as [-> | Hne].
    + rewrite lookup_insert_eq, Hq. simpl.
      rewrite length_app, length_take, length_replicate. lia.
    + rewrite lookup_insert_ne by done. lia.
  - destruct (files w !! q) as [old |] eqn:Hq; [| lia]. simpl.
    destruct (decide (q = p)) as [-> | Hne].
    + rewrite lookup_insert_eq, Hq. simpl. rewrite length_app. lia.
    + rewrite lookup_insert_ne by done. lia.
Qed.

(** A concurrent change is paid for by the budget. *)
Lemma interfere_budget (w : World) (p : string) :
  length (file_content (interfere w) p)
  + sum_list (map (λ a, S (env_growth a)) (interf (interfere w)))
  ≤ length (file_content w p)
    + sum_list (map (λ a, S (env_growth a)) (interf w)).
Proof.
  destruct (interfere_frame w) as (_ & _ & _ & _ & Hi). rewrite Hi.
  unfold interfere. destruct (interf w) as [| a s] eqn:Hs; simpl; [lia |].
  pose proof (apply_env_length a (set_interf w s) p) as H.
  change (file_content (set_interf w s) p) with (file_content w p) in H. lia.
Qed.

Lemma interfere_idle (w : World) : interf w = [] → interfere w = w.
Proof. unfold interfere. by intros ->. Qed.

(** What a read returns and what it leaves behind. *)
Lemma f_Read_spec (fh len : nat) (w : World) chunk err w1 :
  f_Read fh len w = ((chunk, err), w1) →
  files w1 = files (interfere w)
  ∧ interf w1 = tail (interf w)
  ∧ net_faults w1 = net_faults w
  ∧ os_faults w1 = tail (os_faults w)
  ∧ delete fh (fds w1) = delete fh (fds w)
  ∧ ∃ res,
      trace w1 = trace w ++ [EvRead fh res]
      ∧ match err with
        | None =>
            res = ReadData chunk
            ∧ (len ≠ 0 → chunk ≠ [])
            ∧ ∃ d, fds w !! fh = Some d
                   ∧ chunk = take len (drop (fd_off d)
                                         (file_content (interfere w) (fd_path d)))
                   ∧ fds w1 = <[fh := FileDesc (fd_path d) (fd_flags d)
                                               (fd_off d + length chunk)]> (fds w)
        | Some io_EOF => res = ReadEOF ∧ chunk = []
        | Some _ => ∃ e, res = ReadErr e
        end.
Proof.
  unfold f_Read, next_os_fault.
  destruct (interfere_frame w) as (Hfd & Hos & Hnet & Htr & Hi).
  set (wi := interfere w) in *. simpl.
  rewrite Hos, Hfd.
  destruct (next_fault (os_faults w)) as [flt |].
  { intros H. inversion H; subst. simpl. rewrite ?Htr, ?Hfd. eauto 10. }
  destruct (fds w !! fh) as [d |] eqn:Hd.
  2:{ intros H. inversion H; subst. simpl. rewrite ?Htr, ?Hfd. eauto 10. }
  destruct (negb (can_read (fd_flags d))).
  { intros H. inversion H; subst. simpl. rewrite ?Htr, ?Hfd. eauto 10. }
  destruct (take len (drop (fd_off d) (file_content _ (fd_path d))))
    as [| b bs] eqn:Hchunk.
  - destruct len as [| len]; intros H; inversion H; subst; simpl;
      rewrite ?Htr, ?Hfd.
    + rewrite delete_insert_eq. repeat split; try done.
      eexists. split; [reflexivity |]. split; [done |]. split; [done |].
      exists d. simpl. rewrite Nat.add_0_r. done.
    + repeat split; try done. eauto.
  - destruct len as [| len]; [by rewrite take_0 in Hchunk |].
    intros H; inversion H; subst; simpl. rewrite ?Htr, ?Hfd.
    rewrite delete_insert_eq. repeat split; try done.
    eexists. split; [reflexivity |]. split; [done |]. split; [done |].
    exists d. done.
Qed.

Lemma stream_Send_eq m w :
  stream_Send m w
  = (next_send_result w, log (set_net_faults w (tail (net_faults w))) (EvSend m)).
Proof. reflexivity. Qed.

(** ** The loop of the download *)

(** What a run of the loop does, whether it returns or is cut. *)
Lemma download_loop_spec (bufsize : nat) (req : FileDownloadRequest.t)
    (fh : nat) (size : Z) (fuel : nat) :
  ∀ total w o w',
    download_loop bufsize fuel req fh size total w = (o, w') →
    ∃ tr,
      trace w' = trace w ++ tr
      ∧ delete fh (fds w') = delete fh (fds w)
      ∧ opens tr = [] ∧ closes tr = []
      ∧ Forall (λ m, FileDownloadResponse.Filename m
                     = FileDownloadRequest.Filename req
                     ∧ FileDownloadResponse.Size m = size) (sent tr)
      ∧ map FileDownloadResponse.Content (sent tr) = data_reads tr
      ∧ (∀ prev, send_after_read prev tr)
      ∧ match o with
        | Returned r =>
            (eof_seen tr = true →
             r = if decide (sent_total tr total = size) then None
                 else Some (ErrSizeMismatch size (sent_total tr total)))
            ∧ (r = None → eof_seen tr = true)
        | Diverges => True
        end.
Proof.
  induction fuel as [| fuel IH]; intros total w o w' Hrun.
  { simpl in Hrun. unfold_M. inversion Hrun; subst.
    exists []. rewrite app_nil_r. repeat split; done. }
  simpl in Hrun. unfold_M.
  destruct (f_Read fh bufsize w) as [[chunk err] w1] eqn:Hread.
  apply f_Read_spec in Hread
    as (_ & _ & _ & _ & Hdel & res & Htr & Herr).
  destruct err as [err |].
  - assert (Hstop :
      ∃ r, (o, w') = (Returned r, w1)
           ∧ (res = ReadEOF →
              r = if decide (total = size) then None
                  else Some (ErrSizeMismatch size total))
           ∧ (r = None → res = ReadEOF)
           ∧ data_reads [EvRead fh res] = []).
    { destruct err;
        [ destruct Herr as [-> _]
        | destruct Herr as [code ->];
          inversion Hrun; subst; eexists; split; [reflexivity |];
          repeat split; intros; discriminate .. ].
      rewrite <- Hrun.
      destruct (Z.eqb_spec total size) as [Heq | Hne]; simpl.
      - exists None. rewrite decide_True by done. done.
      - eexists. split; [reflexivity |]. rewrite decide_False by done. done. }
    destruct Hstop as (r & Heq & Hr1 & Hr2 & Hr3). inversion Heq; subst.
    exists [EvRead fh res]. repeat split; try done.
    + simpl. destruct res; try done. intros _. by apply Hr1.
    + intros Hr. rewrite (Hr2 Hr). reflexivity.
  - destruct Herr as (-> & _ & _).
    rewrite stream_Send_eq in Hrun.
    set (m := FileDownloadResponse.mk "" (FileDownloadRequest.Filename req)
                chunk size) in *.
    destruct (next_send_result w1) as [e |].
    + inversion Hrun; subst. exists [EvRead fh (ReadData chunk); EvSend m].
      simpl. rewrite Htr, <- app_assoc.
      split; [done |]. split; [done |]. split; [done |]. split; [done |].
      split; [by repeat constructor |]. split; [done |].
      split; [intros prev; simpl; eauto |]. done.
    + apply IH in Hrun as (tr & Htr' & Hdel' & Ho & Hc & Hall & Hmap & Hadj & Hres).
      exists (EvRead fh (ReadData chunk) :: EvSend m :: tr).
      split. { rewrite Htr'. simpl. rewrite Htr, <- !app_assoc. done. }
      split. { rewrite Hdel'. simpl. exact Hdel. }
      split; [exact Ho |]. split; [exact Hc |].
      split. { change (sent (?a :: ?b :: tr)) with (m :: sent tr).
               constructor; [done | exact Hall]. }
      split. { change (sent (?a :: ?b :: tr)) with (m :: sent tr).
               change (data_reads (?a :: ?b :: tr)) with (chunk :: data_reads tr).
               simpl. by rewrite Hmap. }
      split. { intros prev. simpl. eauto. }
      exact Hres.
Qed.

(** With a buffer that is not empty, every read that returns data uses up
    some of the budget, so a loop that starts with more fuel than the
    budget returns. *)
Lemma f_Read_budget (fh len : nat) (w : World) chunk w1 :
  0 < len →
  f_Read fh len w = ((chunk, None), w1) →
  read_budget w1 fh < read_budget w fh.
Proof.
  intros Hlen Hread.
  apply f_Read_spec in Hread
    as (Hfiles & Hint & _ & _ & _ & res & _ & _ & Hne & d & Hd & Hchunk & Hfds).
  specialize (Hne ltac:(lia)).
  unfold read_budget. rewrite Hd, Hfds, lookup_insert_eq. simpl.
  pose proof (interfere_budget w (fd_path d)) as Hb.
  destruct (interfere_frame w) as (_ & _ & _ & _ & Hi).
  rewrite Hi in Hb. rewrite Hint.
  unfold file_content in *. rewrite Hfiles.
  set (ci := default [] (files (interfere w) !! fd_path d)) in *.
  assert (Hc : 0 < length chunk) by (destruct chunk; [done | simpl; lia]).
  assert (Hle : length chunk ≤ length ci - fd_off d).
  { rewrite Hchunk, length_take, length_drop. lia. }
  lia.
Qed.

Lemma download_loop_returns (bufsize : nat) (req : FileDownloadRequest.t)
    (fh : nat) (size : Z) (fuel : nat) :
  0 < bufsize →
  ∀ total w,
    read_budget w fh < fuel →
    ∃ r w', download_loop bufsize fuel req fh size total w = (Returned r, w').
Proof.
  intros Hbuf. induction fuel as [| fuel IH]; intros total w Hfuel; [lia |].
  simpl. unfold_M.
  destruct (f_Read fh bufsize w) as [[chunk err] w1] eqn:Hread.
  destruct err as [err |].
  - destruct err; try (eexists _, _; reflexivity).
    destruct (negb (total =? size)%Z); eexists _, _; reflexivity.
  - apply f_Read_budget in Hread; [| done].
    rewrite stream_Send_eq.
    destruct (next_send_result w1); [eexists _, _; reflexivity |].
    apply IH. change (read_budget (log (set_net_faults w1 _) _) fh)
                with (read_budget w1 fh). lia.
Qed.

(** ** The download handler *)

Lemma os_Open_eq (name : string) (w : World) :
  os_Open name w
  = match next_fault (os_faults w), files w !! name with
    | Some flt, _ =>
        ((None, Some (SysErr (fault_errno flt))),
         log (set_os_faults w (tail (os_faults w)))
             (EvOpen name O_RDONLY (inl (fault_errno flt))))
    | None, None =>
        ((None, Some (SysErr ENOENT)),
         log (set_os_faults w (tail (os_faults w)))
             (EvOpen name O_RDONLY (inl ENOENT)))
    | None, Some _ =>
        ((Some (fresh (dom (fds w))), None),
         log (set_fds (set_os_faults w (tail (os_faults w)))
                      (<[fresh (dom (fds w)) := FileDesc name O_RDONLY 0]> (fds w)))
             (EvOpen name O_RDONLY (inr (fresh (dom (fds w))))))
    end.
Proof.
  unfold os_Open, os_OpenFile, next_os_fault. simpl.
  destruct (next_fault (os_faults w)); [reflexivity |].
  destruct (files w !! name) as [old |] eqn:Hold; [| reflexivity].
  unfold set_files, set_fds, log. simpl. by rewrite insert_id.
Qed.

Lemma send_after_read_snoc (tr : list event) (e : event) :
  match e with EvSend _ => False | _ => True end →
  ∀ prev, send_after_read prev tr → send_after_read prev (tr ++ [e]).
Proof.
  intros He. induction tr as [| a tr IH]; intros prev H; simpl in *.
  - split; [| done]. destruct e; done.
  - destruct H as [Ha Htr]. split; [exact Ha | by apply IH].
Qed.

(** What a download session does: its calls, its messages, its result. *)
Lemma download_spec (bufsize : nat) (req : FileDownloadRequest.t) (w : World) :
  let name := FileDownloadRequest.Filename req in
  let size := stat_size w name in
  ∃ o w' tr,
    download bufsize req w = (o, w')
    ∧ trace w' = trace w ++ tr
    ∧ fds w' = fds w
    ∧ Forall (λ m, FileDownloadResponse.Filename m = name
                   ∧ FileDownloadResponse.Size m = size) (sent tr)
    ∧ map FileDownloadResponse.Content (sent tr) = data_reads tr
    ∧ send_after_read None tr
    ∧ (0 < bufsize → o ≠ Diverges)
    ∧ match o with
      | Returned r =>
          (eof_seen tr = true →
           r = if decide (sent_total tr 0 = size) then None
               else Some (ErrSizeMismatch size (sent_total tr 0)))
          ∧ (r = None → eof_seen tr = true)
      | Diverges => True
      end.
Proof.
  intros name size. unfold download. unfold_M. rewrite os_Open_eq.
  fold name.
  destruct (next_fault (os_faults w)) as [flt |].
  { eexists _, _, [_]. split; [reflexivity |]. simpl.
    repeat split; try done. }
  destruct (files w !! name) as [old |] eqn:Hold.
  2:{ eexists _, _, [_]. split; [reflexivity |]. simpl.
      repeat split; try done. }
  set (fh := fresh (dom (fds w))).
  set (w1 := log (set_fds (set_os_faults w (tail (os_faults w))) _) _).
  unfold download_opened. unfold_M.
  unfold f_Stat, next_os_fault.
  cbn [fst snd].
  set (w2 := log (set_os_faults w1 (tail (os_faults w1))) (EvStat fh)).
  assert (Hfd2 : fds w2 !! fh = Some (FileDesc name O_RDONLY 0))
    by (simpl; apply lookup_insert_eq).
  assert (Hfree : delete fh (fds w2) = fds w).
  { simpl. rewrite delete_insert_eq. apply delete_id, fresh_fd_free. }
  rewrite Hfd2.
  destruct (next_fault (os_faults w1)) as [flt |].
  { eexists _, _, [_; _; _]. split; [reflexivity |].
    split; [simpl; by rewrite <- !app_assoc |].
    split; [exact Hfree |]. simpl. repeat split; try done. }
  cbn [fd_path].
  change (int64_of_int (length (file_content w2 name))) with size.
  destruct (download_loop bufsize (S (read_budget w2 fh)) req fh size 0 w2)
    as [o w3] eqn:Hloop.
  pose proof Hloop as Hspec.
  apply download_loop_spec in Hspec
    as (tr & Htr & Hdel & _ & _ & Hall & Hmap & Hadj & Hres).
  exists o, (log (set_fds w3 (delete fh (fds w3))) (EvClose fh)),
    (EvOpen name O_RDONLY (inr fh) :: EvStat fh :: tr ++ [EvClose fh]).
  split; [reflexivity |].
  split. { simpl. rewrite Htr. simpl. by rewrite <- !app_assoc. }
  split. { simpl. rewrite Hdel. exact Hfree. }
  assert (Hsent : sent (EvOpen name O_RDONLY (inr fh) :: EvStat fh
                          :: tr ++ [EvClose fh]) = sent tr).
  { unfold sent. simpl. rewrite omap_app. simpl. by rewrite app_nil_r. }
  assert (Hreads : data_reads (EvOpen name O_RDONLY (inr fh) :: EvStat fh
                                 :: tr ++ [EvClose fh]) = data_reads tr).
  { unfold data_reads. simpl. rewrite omap_app. simpl. by rewrite app_nil_r. }
  assert (Heof : eof_seen (EvOpen name O_RDONLY (inr fh) :: EvStat fh
                             :: tr ++ [EvClose fh]) = eof_seen tr).
  { unfold eof_seen. simpl. rewrite existsb_app. simpl.
    by rewrite !orb_false_r. }
  unfold sent_total. rewrite Hsent, Hreads, Heof.
  split; [exact Hall |]. split; [exact Hmap |].
  split. { simpl. split; [done |]. split; [done |].
           by apply send_after_read_snoc. }
  split.
  { intros Hbuf.
    destruct (download_loop_returns bufsize req fh size
                (S (read_budget w2 fh)) Hbuf 0 w2 ltac:(lia))
      as (r & w4 & Hret).
    rewrite Hret in Hloop. by inversion Hloop. }
  exact Hres.
Qed.




Example download_truncated_file :
  let w := mkWorld {[ "a" := [Byte.x41; Byte.x42; Byte.x43] ]} ∅ [] []
                   [EnvIdle; EnvTruncate "a" 2] [] [] in
  (download 2 (FileDownloadRequest.mk "a") w).1
  = Returned (Some (ErrSizeMismatch 3 2)).
Proof. vm_compute. reflexivity. Qed.

Example download_extended_file :
  let w := mkWorld {[ "a" := [Byte.x41; Byte.x42; Byte.x43] ]} ∅ [] []
                   [EnvIdle; EnvAppend "a" [Byte.x44]] [] [] in
  (download 2 (FileDownloadRequest.mk "a") w).1
  = Returned (Some (ErrSizeMismatch 3 4)).
Proof. vm_compute. reflexivity. Qed.

(** C6. Every message that a download session sends carries the filename
    of the request, the chunk that the call just before it has read, and
    the size of the file as stat gave it when the file was opened, the same
    on every message; the contents of the messages are, in order, the
    chunks read. *)
Theorem download_messages (bufsize : nat) (req : FileDownloadRequest.t)
    (w : World) :
  let '(o, w') := download bufsize req w in
  let tr := new_events w w' in
  Forall (λ m, FileDownloadResponse.Filename m
               = FileDownloadRequest.Filename req
               ∧ FileDownloadResponse.Size m
                 = stat_size w (FileDownloadRequest.Filename req))
         (sent tr)
  ∧ send_after_read None tr
  ∧ map FileDownloadResponse.Content (sent tr) = data_reads tr.
Proof.
  destruct (download_spec bufsize req w)
    as (o & w' & tr & Hrun & Htr & _ & Hall & Hmap & Hadj & _).
  rewrite Hrun. cbv zeta. rewrite (new_events_app _ _ _ Htr). done.
Qed.

(** ** Files of zero bytes *)

Lemma healthy_three {A} (script : list (option A)) :
  healthy (take 3 script) →
  next_fault script = None
  ∧ next_fault (tail script) = None
  ∧ next_fault (tail (tail script)) = None.
Proof.
  intros H. apply healthy_next in H as [H1 H].
  apply healthy_next in H as [H2 H].
  apply healthy_next in H as [H3 _]. done.
Qed.

Lemma f_Read_eof (fh k : nat) (w : World) (d : file_desc) :
  fds w !! fh = Some d →
  can_read (fd_flags d) = true →
  interf w = [] →
  next_fault (os_faults w) = None →
  drop (fd_off d) (file_content w (fd_path d)) = [] →
  f_Read fh (S k) w
  = (([], Some io_EOF),
     log (set_os_faults w (tail (os_faults w))) (EvRead fh ReadEOF)).
Proof.
  intros Hfd Hr Hint Hflt Hdrop.
  unfold f_Read. rewrite (interfere_idle _ Hint).
  unfold next_os_fault. rewrite Hflt. simpl fds. rewrite Hfd, Hr.
  cbn [negb].
  change (file_content (set_os_faults w (tail (os_faults w))) (fd_path d))
    with (file_content w (fd_path d)).
  rewrite Hdrop. reflexivity.
Qed.

Lemma download_opened_empty (k : nat) (req : FileDownloadRequest.t)
    (fh : nat) (name : string) (w : World) :
  fds w !! fh = Some (FileDesc name O_RDONLY 0) →
  files w !! name = Some [] →
  interf w = [] →
  next_fault (os_faults w) = None →
  next_fault (tail (os_faults w)) = None →
  download_opened (S k) req fh w
  = (Returned None,
     log (set_os_faults (log (set_os_faults w (tail (os_faults w))) (EvStat fh))
                        (tail (tail (os_faults w))))
         (EvRead fh ReadEOF)).
Proof.
  intros Hfd Hfile Hint H1 H2.
  unfold download_opened, f_Stat, next_os_fault. unfold_M. cbn [fst snd].
  rewrite H1. simpl fds. rewrite Hfd. cbn [fd_path].
  unfold file_content at 1. simpl files. rewrite Hfile. simpl length.
  change (int64_of_int 0) with 0%Z.
  unfold read_budget. simpl fds. rewrite Hfd. cbn [fd_path fd_off].
  unfold file_content at 1. simpl files. rewrite Hfile. simpl interf.
  rewrite Hint. simpl. unfold_M.
  erewrite f_Read_eof; [reflexivity | exact Hfd | reflexivity | exact Hint
                        | exact H2 |].
  unfold file_content. simpl. by rewrite Hfile.
Qed.

Lemma download_empty_file (bufsize : nat) (name : string) (w : World) :
  0 < bufsize →
  files w !! name = Some [] →
  interf w = [] →
  healthy (take 3 (os_faults w)) →
  ∃ w' fh,
    download bufsize (FileDownloadRequest.mk name) w = (Returned None, w')
    ∧ new_events w w'
      = [EvOpen name O_RDONLY (inr fh); EvStat fh; EvRead fh ReadEOF;
         EvClose fh].
Proof.
  intros Hbuf Hfile Hint Hh.
  apply healthy_three in Hh as (H1 & H2 & H3).
  destruct bufsize as [| k]; [lia |].
  unfold download. unfold_M. rewrite os_Open_eq. simpl FileDownloadRequest.Filename.
  rewrite H1, Hfile.
  set (fh := fresh (dom (fds w))).
  erewrite (download_opened_empty k _ fh name);
    [| apply lookup_insert_eq | exact Hfile | exact Hint | exact H2 | exact H3].
  eexists _, fh. split; [reflexivity |].
  apply new_events_app. simpl. by rewrite <- !app_assoc.
Qed.

Lemma uploaded_empty (msgs : list FileUploadRequest.t) :
  Forall (λ m, FileUploadRequest.Content m = []) msgs → uploaded msgs = [].
Proof.
  induction 1 as [| m msgs Hm _ IH]; [reflexivity |].
  by rewrite uploaded_cons, Hm, IH.
Qed.

(** C9. The upload of a file of zero bytes, its size declared as 0, and
    the download of a file of zero bytes both succeed when neither the
    file system nor the transport fails: the upload counts 0 bytes, which
    is the declared size, and acknowledges; the download sends no chunk,
    counts 0 bytes, which is the size that stat gave, and returns nil. *)
Theorem zero_byte_transfers
    (msgs : list FileUploadRequest.t) (wu : World)
    (bufsize : nat) (name : string) (wd : World) :
  Forall (λ m, FileUploadRequest.Content m = []) msgs →
  declared msgs = 0%Z →
  healthy (take (upload_os_calls msgs) (os_faults wu)) →
  next_fault (net_faults wu) = None →
  0 < bufsize →
  files wd !! name = Some [] →
  interf wd = [] →
  healthy (take 3 (os_faults wd)) →
  (let '(r, w') := upload (map RecvMsg msgs) wu in
   r = None
   ∧ received msgs = 0%Z
   ∧ received msgs = declared msgs
   ∧ acks (new_events wu w')
     = [newUploadResponse "Upload received successfully"])
  ∧ (let '(o, w') := download bufsize (FileDownloadRequest.mk name) wd in
     o = Returned None
     ∧ sent (new_events wd w') = []
     ∧ sent_total (new_events wd w') 0 = 0%Z
     ∧ sent_total (new_events wd w') 0 = stat_size wd name).
Proof.
  intros Hempty Hdecl Hos Hnet Hbuf Hfile Hint Hosd. split.
  - assert (Hrecv : received msgs = 0%Z).
    { rewrite received_wrap, (uploaded_empty _ Hempty). reflexivity. }
    destruct (upload_reaches_eof msgs wu Hos)
      as (v & w1 & tr & -> & Hnet1 & Htr & Hacks).
    unfold upload_eof. cbn [totalBytes expectedSize].
    rewrite Hrecv, Hdecl. cbn [Z.eqb negb]. cbv iota.
    rewrite stream_SendAndClose_eq. cbv iota beta.
    unfold next_send_result. rewrite Hnet1, Hnet.
    split; [done |]. split; [done |]. split; [done |].
    erewrite new_events_app.
    2:{ simpl. rewrite Htr, <- app_assoc. reflexivity. }
    unfold acks in *. rewrite omap_app, Hacks. done.
  - destruct (download_empty_file bufsize name wd Hbuf Hfile Hint Hosd)
      as (w' & fh & -> & ->).
    unfold stat_size, file_content. rewrite Hfile. done.
Qed.

Lemma zero_byte_transfers_witness :
  let msgs := [FileUploadRequest.mk "empty" [] 0] in
  let wu := mkWorld ∅ ∅ [] [] [] [] [] in
  let wd := mkWorld {[ "empty" := [] ]} ∅ [] [] [] [] [] in
  (let '(r, w') := upload (map RecvMsg msgs) wu in
   r = None
   ∧ received msgs = 0%Z
   ∧ received msgs = declared msgs
   ∧ acks (new_events wu w')
     = [newUploadResponse "Upload received successfully"])
  ∧ (let '(o, w') := download StreamBufferSize_default
                                (FileDownloadRequest.mk "empty") wd in
     o = Returned None
     ∧ sent (new_events wd w') = []
     ∧ sent_total (new_events wd w') 0 = 0%Z
     ∧ sent_total (new_events wd w') 0 = stat_size wd "empty").
Proof.
  intros msgs wu wd.
  apply (zero_byte_transfers msgs wu StreamBufferSize_default "empty" wd).
  - repeat constructor.
  - reflexivity.
  - constructor.
  - reflexivity.
  - apply Nat.lt_0_succ.
  - reflexivity.
  - reflexivity.
  - constructor.
Defined.

(** ** The listener *)

Lemma newListener_bound valid (addr : string) (opt : ServerOption) (w : World) :
  TLS opt = true →
  next_fault (os_faults w) = None →
  newListener valid addr opt w
  = let w1 := log (set_os_faults w (tail (os_faults w))) (EvListen addr) in
    if bool_decide (CertFile opt = "") || bool_decide (KeyFile opt = "") then
      let '((tlsConfig, err), w2) := genSelfSignedTLS w1 in
      match err with
      | Some e =>
          ((None, Some (Errorf "failed to generate tls config" (Some e))), w2)
      | None => ((Some (tls_NewListener (TCPListener addr) tlsConfig), None), w2)
      end
    else
      let '((tlsConfig, err), w2) :=
        genTLS valid (CertFile opt) (KeyFile opt) w1 in
      match err with
      | Some e =>
          ((None, Some (Errorf "failed to generate tls config" (Some e))), w2)
      | None => ((Some (tls_NewListener (TCPListener addr) tlsConfig), None), w2)
      end.
Proof.
  intros Htls Hflt. unfold newListener, net_Listen, next_os_fault. unfold_M.
  rewrite Hflt, Htls. cbn [negb fst snd].
  destruct (bool_decide (CertFile opt = "") || bool_decide (KeyFile opt = "")).
  - destruct (genSelfSignedTLS _) as [[cfg [e |]] w2]; reflexivity.
  - destruct (genTLS _ _ _ _) as [[cfg [e |]] w2]; reflexivity.
Qed.

Lemma genTLS_eq valid (certFile keyFile : string) (w : World) :
  genTLS valid certFile keyFile w
  = let w1 := log (set_os_faults w (tail (os_faults w))) (EvReadFile certFile) in
    let w2 := log (set_os_faults w1 (tail (os_faults w1))) (EvReadFile keyFile) in
    let failed cause := (None, Some (Errorf "CertificateLoadError" (Some cause))) in
    match next_fault (os_faults w), files w !! certFile with
    | Some flt, _ => (failed (SysErr (fault_errno flt)), w1)
    | None, None => (failed (SysErr ENOENT), w1)
    | None, Some certPEM =>
        match next_fault (tail (os_faults w)), files w !! keyFile with
        | Some flt, _ => (failed (SysErr (fault_errno flt)), w2)
        | None, None => (failed (SysErr ENOENT), w2)
        | None, Some keyPEM =>
            if valid certPEM keyPEM
            then ((Some (mkConfig [LoadedKeyPair certPEM keyPEM]), None), w2)
            else (failed ErrInvalidKeyPair, w2)
        end
    end.
Proof.
  unfold genTLS, os_ReadFile, next_os_fault. unfold_M. cbn [fst snd]. simpl files.
  destruct (next_fault (os_faults w)); [reflexivity |].
  destruct (files w !! certFile) as [c |]; [| reflexivity].
  simpl os_faults. simpl files.
  destruct (next_fault (tail (os_faults w))); [reflexivity |].
  simpl files.
  destruct (files w !! keyFile) as [k |]; [| reflexivity].
  destruct (valid c k); reflexivity.
Qed.

(** C7. With TLS enabled and the address bound, the listener builder
    loads the key pair from disk when both the certificate path and the key
    path are configured: it wraps the listener with that pair when both
    files are there, readable and a valid pair, and gives up with a
    certificate load error when either file is missing, or unreadable, or
    the pair is invalid.  When a path is absent it generates a key pair and
    a self-signed certificate from the random source instead, reading no
    file, and gives up when the generation fails.  In neither case is a
    file written; giving up means that no listener is returned. *)
Theorem newListener_certificates valid (addr : string) (opt : ServerOption)
    (w : World) :
  TLS opt = true →
  next_fault (os_faults w) = None →
  let '((lis, err), w') := newListener valid addr opt w in
  let faults := tail (os_faults w) in
  files w' = files w
  ∧ (CertFile opt ≠ "" → KeyFile opt ≠ "" →
     (∀ c k,
        files w !! CertFile opt = Some c → files w !! KeyFile opt = Some k →
        healthy (take 2 faults) → valid c k = true →
        lis = Some (tls_NewListener (TCPListener addr)
                      (Some (mkConfig [LoadedKeyPair c k])))
        ∧ err = None)
     ∧ (files w !! CertFile opt = None ∨ files w !! KeyFile opt = None →
        lis = None ∧ tls_config_failure "CertificateLoadError" err)
     ∧ (¬ healthy (take 2 faults) →
        lis = None ∧ tls_config_failure "CertificateLoadError" err)
     ∧ (∀ c k,
          files w !! CertFile opt = Some c → files w !! KeyFile opt = Some k →
          valid c k = false →
          lis = None ∧ tls_config_failure "CertificateLoadError" err)
     ∧ entropy w' = entropy w)
  ∧ (CertFile opt = "" ∨ KeyFile opt = "" →
     files_read (new_events w w') = []
     ∧ match entropy w with
       | key :: _ =>
           lis = Some (tls_NewListener (TCPListener addr)
                         (Some (mkConfig [SelfSigned key placeholder_subject
                                            validity_days_one_year])))
           ∧ err = None
       | [] =>
           lis = None ∧ tls_config_failure "CertificateGenerationError" err
       end).
Proof.
  intros Htls Hflt. rewrite (newListener_bound _ _ _ _ Htls Hflt). cbv zeta.
  destruct (bool_decide (CertFile opt = "") || bool_decide (KeyFile opt = ""))
    eqn:Habsent.
  - apply orb_true_iff in Habsent.
    rewrite !bool_decide_eq_true in Habsent.
    unfold genSelfSignedTLS. simpl entropy.
    destruct (entropy w) as [| key rest] eqn:Hent.
    + split; [done |]. split; [intros ? ?; tauto |]. intros _.
      split; [by erewrite new_events_app; [| simpl; reflexivity] |].
      split; [done |]. by eexists.
    + split; [done |]. split; [intros ? ?; tauto |]. intros _.
      split; [by erewrite new_events_app; [| simpl; reflexivity] |]. done.
  - apply orb_false_iff in Habsent as [Hc Hk].
    rewrite bool_decide_eq_false in Hc. rewrite bool_decide_eq_false in Hk.
    rewrite genTLS_eq. cbv zeta. simpl os_faults. simpl files.
    assert (Hh : ∀ a b : option fault,
               healthy [a; b] ↔ a = None ∧ b = None).
    { intros a b. split.
      - intros H. inversion H as [| ? ? ? H']; subst. by inversion H'; subst.
      - intros [-> ->]. by repeat constructor. }
    assert (Hh1 : ∀ a : option fault, healthy [a] ↔ a = None).
    { intros a. split.
      - intros H. by inversion H.
      - intros ->. by repeat constructor. }
    assert (Htake : healthy (take 2 (tail (os_faults w)))
                    ↔ next_fault (tail (os_faults w)) = None
                      ∧ next_fault (tail (tail (os_faults w))) = None).
    { destruct (tail (os_faults w)) as [| a [| b s]]; simpl.
      - split; [done | intros; constructor].
      - rewrite Hh1. tauto.
      - apply Hh. }
    destruct (next_fault (tail (os_faults w))) as [f1 |] eqn:H1;
      [| destruct (files w !! CertFile opt) as [c |] eqn:Hcert;
         [ destruct (next_fault (tail (tail (os_faults w)))) as [f2 |] eqn:H2;
           [| destruct (files w !! KeyFile opt) as [k |] eqn:Hkey;
              [ destruct (valid c k) eqn:Hvalid |] ] |] ];
      (split; [done |]); (split; [| intros [? | ?]; done]); intros _ _;
      repeat split; intros; simplify_eq; try done;
      try (by eexists); try (by exfalso; tauto);
      try (by destruct_or?; simplify_eq).
  all: exfalso; try congruence;
    match goal with
    | Hy : healthy _ |- _ => apply Htake in Hy; destruct Hy; congruence
    | Hn : ¬ healthy _ |- _ => apply Hn, Htake; done
    end.
Qed.

Lemma newListener_certificates_witness :
  let valid := λ c k : list byte, Nat.eqb (length c) (length k) in
  let opt := mkServerOption "localhost" 8022 true "cert.pem" "key.pem" in
  let w := mkWorld {[ "cert.pem" := [Byte.x43]; "key.pem" := [Byte.x4b] ]}
                   ∅ [] [] [] [] [] in
  TLS opt = true
  ∧ next_fault (os_faults w) = None
  ∧ (newListener valid "localhost:8022" opt w).1
    = (Some (tls_NewListener (TCPListener "localhost:8022")
               (Some (mkConfig [LoadedKeyPair [Byte.x43] [Byte.x4b]]))),
       None).
Proof.
  intros valid opt w.
  split; [reflexivity |]. split; [reflexivity |].
  pose proof (newListener_certificates valid "localhost:8022" opt w
                eq_refl eq_refl) as H.
  destruct (newListener valid "localhost:8022" opt w) as [[lis err] w'].
  destruct H as (_ & Hload & _).
  destruct (Hload ltac:(discriminate) ltac:(discriminate)) as (Hok & _).
  destruct (Hok [Byte.x43] [Byte.x4b] eq_refl eq_refl) as [-> ->].
  - constructor.
  - reflexivity.
  - reflexivity.
Defined.

(** * Further properties of the handlers *)

Lemma healthy_tail {A} (script : list (option A)) :
  healthy script → next_fault script = None ∧ healthy (tail script).
Proof.
  destruct script as [| o s]; [done |].
  intros H. inversion H; subst. done.
Qed.

(** ** The paths of the download *)

(** A download session fails before its loop, on the open or on the stat,
    or it runs its loop on the opened file and then closes it. *)
Lemma download_cases (n : nat) (req : FileDownloadRequest.t) (w : World) :
  let name := FileDownloadRequest.Filename req in
  let fh := fresh (dom (fds w)) in
  let w0 := set_os_faults w (tail (os_faults w)) in
  let w1 := log (set_fds w0 (<[fh := FileDesc name O_RDONLY 0]> (fds w)))
                (EvOpen name O_RDONLY (inr fh)) in
  let w2 := log (set_os_faults w1 (tail (os_faults w1))) (EvStat fh) in
  (∃ e, (next_fault (os_faults w) = Some e
         ∨ next_fault (os_faults w) = None ∧ files w !! name = None
           ∧ e = FaultErr ENOENT)
        ∧ download n req w
          = (Returned (Some (Errorf "failed to open file"
                                    (Some (SysErr (fault_errno e))))),
             log w0 (EvOpen name O_RDONLY (inl (fault_errno e)))))
  ∨ (∃ e, next_fault (os_faults w) = None ∧ is_Some (files w !! name)
          ∧ next_fault (tail (os_faults w)) = Some e
          ∧ download n req w
            = (Returned (Some (Errorf "failed to stat file"
                                      (Some (SysErr (fault_errno e))))),
               log (set_fds w2 (delete fh (fds w2))) (EvClose fh)))
  ∨ (next_fault (os_faults w) = None ∧ is_Some (files w !! name)
     ∧ next_fault (tail (os_faults w)) = None
     ∧ ∃ o w3,
         download_loop n (S (read_budget w2 fh)) req fh (stat_size w name) 0 w2
         = (o, w3)
         ∧ download n req w
           = (o, log (set_fds w3 (delete fh (fds w3))) (EvClose fh))).
Proof.
  intros name fh w0 w1 w2. unfold download. unfold_M. rewrite os_Open_eq.
  fold name.
  destruct (next_fault (os_faults w)) as [flt |] eqn:Hflt.
  { left. exists flt. split; [by left | reflexivity]. }
  destruct (files w !! name) as [old |] eqn:Hold.
  2:{ left. exists (FaultErr ENOENT). split; [by right | reflexivity]. }
  right. fold fh w0 w1.
  unfold download_opened. unfold_M. unfold f_Stat, next_os_fault.
  cbn [fst snd]. fold w2.
  assert (Hfd2 : fds w2 !! fh = Some (FileDesc name O_RDONLY 0))
    by (simpl; apply lookup_insert_eq).
  rewrite Hfd2. change (os_faults w1) with (tail (os_faults w)).
  destruct (next_fault (tail (os_faults w))) as [flt |] eqn:Hflt2.
  { left. exists flt. repeat split; try done. }
  right. cbn [fd_path].
  change (int64_of_int (length (file_content w2 name))) with (stat_size w name).
  split; [done |]. split; [done |]. split; [done |].
  destruct (download_loop n _ req fh _ 0 w2) as [o w3] eqn:Hloop.
  exists o, w3. split; reflexivity.
Qed.

Lemma interfere_files_idle (w : World) :
  interf w = [] → files (interfere w) = files w ∧ interf (interfere w) = [].
Proof. intros H. by rewrite (interfere_idle _ H). Qed.

Lemma f_Read_entropy (fh n : nat) (w : World) :
  entropy (f_Read fh n w).2 = entropy w.
Proof.
  assert (He : entropy (interfere w) = entropy w).
  { unfold interfere. destruct (interf w) as [| [| p k | p d] s]; simpl;
      try done; by destruct (files w !! p). }
  unfold f_Read, next_os_fault. simpl.
  destruct (next_fault _); [exact He |].
  destruct (fds _ !! fh) as [d |]; [| exact He].
  destruct (negb _); [exact He |].
  destruct (take n _), n; exact He.
Qed.

(** What the loop of the download leaves alone, and how large its chunks
    are. *)
Lemma download_loop_frame (n : nat) (req : FileDownloadRequest.t)
    (fh : nat) (size : Z) (fuel : nat) :
  ∀ total w o w',
    download_loop n fuel req fh size total w = (o, w') →
    ∃ tr,
      trace w' = trace w ++ tr
      ∧ Forall (λ m, length (FileDownloadResponse.Content m) ≤ n
                     ∧ (0 < n → FileDownloadResponse.Content m ≠ []))
               (sent tr)
      ∧ (interf w = [] → files w' = files w ∧ interf w' = [])
      ∧ entropy w' = entropy w.
Proof.
  induction fuel as [| fuel IH]; intros total w o w' Hrun.
  { simpl in Hrun. unfold_M. inversion Hrun; subst.
    exists []. rewrite app_nil_r. by repeat split. }
  simpl in Hrun. unfold_M.
  destruct (f_Read fh n w) as [[chunk err] w1] eqn:Hread.
  assert (Hent : entropy w1 = entropy w).
  { pose proof (f_Read_entropy fh n w) as He. by rewrite Hread in He. }
  apply f_Read_spec in Hread
    as (Hfiles & Hint & _ & _ & _ & res & Htr & Herr).
  assert (Hidle : interf w = [] → files w1 = files w ∧ interf w1 = []).
  { intros Hi. rewrite Hfiles, Hint, Hi.
    by rewrite (proj1 (interfere_files_idle _ Hi)). }
  destruct err as [err |].
  - assert (Hw : w' = w1).
    { destruct err; try destruct (negb _); by inversion Hrun. }
    subst w'. exists [EvRead fh res]. split; [exact Htr |].
    split; [| done].
    destruct err; [destruct Herr as [-> _] | destruct Herr as [code ->] ..];
      constructor.
  - destruct Herr as (-> & Hne & d & _ & Hchunk & _).
    rewrite stream_Send_eq in Hrun.
    set (m := FileDownloadResponse.mk "" (FileDownloadRequest.Filename req)
                chunk size) in *.
    assert (Hm : length (FileDownloadResponse.Content m) ≤ n
                 ∧ (0 < n → FileDownloadResponse.Content m ≠ [])).
    { simpl. split; [| intros; apply Hne; lia].
      rewrite Hchunk, length_take. lia. }
    clear Hchunk Hne.
    destruct (next_send_result w1) as [e |].
    + inversion Hrun; subst.
      exists [EvRead fh (ReadData chunk); EvSend m].
      split; [simpl; by rewrite Htr, <- app_assoc |].
      split; [| done].
      change (sent _) with [m]. constructor; [exact Hm | constructor].
    + apply IH in Hrun as (tr & Htr' & Hall & Hidle' & Hent').
      exists (EvRead fh (ReadData chunk) :: EvSend m :: tr).
      split. { rewrite Htr'. simpl. by rewrite Htr, <- !app_assoc. }
      split. { change (sent (?a :: ?b :: tr)) with (m :: sent tr).
               by constructor. }
      split; [| by rewrite Hent'].
      intros Hi. destruct (Hidle Hi) as [Hf1 Hi1].
      destruct (Hidle' Hi1) as [Hf2 Hi2]. split; [| done].
      by rewrite Hf2.
Qed.

Lemma download_trace (n : nat) (req : FileDownloadRequest.t) (w : World) :
  let name := FileDownloadRequest.Filename req in
  let fh := fresh (dom (fds w)) in
  ∃ o w', download n req w = (o, w')
    ∧ ((∃ e, new_events w w' = [EvOpen name O_RDONLY (inl e)]
             ∧ files w' = files w ∧ entropy w' = entropy w)
       ∨ (new_events w w'
          = [EvOpen name O_RDONLY (inr fh); EvStat fh; EvClose fh]
          ∧ files w' = files w ∧ entropy w' = entropy w)
       ∨ (∃ w2 w3 tr,
            download_loop n (S (read_budget w2 fh)) req fh (stat_size w name) 0 w2
            = (o, w3)
            ∧ files w2 = files w ∧ interf w2 = interf w
            ∧ entropy w2 = entropy w
            ∧ files w' = files w3 ∧ entropy w' = entropy w3
            ∧ trace w3 = trace w2 ++ tr
            ∧ new_events w w'
              = EvOpen name O_RDONLY (inr fh) :: EvStat fh :: tr ++ [EvClose fh])).
Proof.
  intros name fh.
  destruct (download_cases n req w)
    as [(e & _ & Hrun) | [(e & _ & _ & _ & Hrun)
                         | (_ & _ & _ & o & w3 & Hloop & Hrun)]];
    fold name fh in Hrun; rewrite Hrun; eexists _, _; (split; [reflexivity |]).
  - left. eexists. split; [| done].
    apply new_events_app. reflexivity.
  - right. left. split; [| done].
    apply new_events_app. simpl. by rewrite <- !app_assoc.
  - right. right. fold name fh in Hloop.
    destruct (download_loop_frame _ _ _ _ _ _ _ _ _ Hloop) as (tr & Htr & _).
    eexists _, w3, tr. split; [exact Hloop |].
    repeat split; try done.
    apply new_events_app. simpl. rewrite Htr. simpl.
    by rewrite <- !app_assoc.
Qed.

Lemma sent_snoc_close (e1 e2 : event) (tr : list event) (fh : nat) :
  match e1 with EvSend _ => False | _ => True end →
  match e2 with EvSend _ => False | _ => True end →
  sent (e1 :: e2 :: tr ++ [EvClose fh]) = sent tr.
Proof.
  intros H1 H2. unfold sent.
  destruct e1; try done; destruct e2; try done;
    simpl; rewrite omap_app; simpl; by rewrite app_nil_r.
Qed.

(** X1. Whatever the file, the failures and the concurrent changes, no
    message of a download carries more bytes than the buffer holds, and
    with a buffer that is not empty no message is empty. *)
Theorem download_chunk_sizes (n : nat) (req : FileDownloadRequest.t)
    (w : World) :
  let '(o, w') := download n req w in
  Forall (λ m, length (FileDownloadResponse.Content m) ≤ n
               ∧ (0 < n → FileDownloadResponse.Content m ≠ []))
         (sent (new_events w w')).
Proof.
  destruct (download_trace n req w)
    as (o & w' & -> & [(e & -> & _) | [(-> & _)
         | (w2 & w3 & tr & Hloop & _ & _ & _ & _ & _ & Htr & ->)]]).
  - constructor.
  - constructor.
  - rewrite sent_snoc_close by done.
    destruct (download_loop_frame _ _ _ _ _ _ _ _ _ Hloop)
      as (tr' & Htr' & Hall & _).
    rewrite Htr in Htr'. apply app_inv_head in Htr'. by subst tr'.
Qed.

(** X2. A download changes no file and draws nothing from the random
    source: when no other process touches the file system during the
    session, the files are afterwards what they were, on every path. *)
Theorem download_changes_no_file (n : nat) (req : FileDownloadRequest.t)
    (w : World) :
  interf w = [] →
  files (download n req w).2 = files w
  ∧ entropy (download n req w).2 = entropy w.
Proof.
  intros Hi.
  destruct (download_trace n req w)
    as (o & w' & -> & [(e & _ & Hf & He) | [(_ & Hf & He)
         | (w2 & w3 & tr & Hloop & Hf2 & Hi2 & He2 & Hf3 & He3 & _)]]);
    [done | done |].
  destruct (download_loop_frame _ _ _ _ _ _ _ _ _ Hloop)
    as (_ & _ & _ & Hidle & Hent).
  rewrite Hi in Hi2. destruct (Hidle Hi2) as [Hf _].
  simpl. split; congruence.
Qed.

Lemma download_changes_no_file_witness :
  let w := mkWorld {[ "a" := [Byte.x41; Byte.x42; Byte.x43] ]} ∅
                   [] [None; Some ECANCELED] [] [] [] in
  interf w = []
  ∧ files (download 2 (FileDownloadRequest.mk "a") w).2 = files w
  ∧ entropy (download 2 (FileDownloadRequest.mk "a") w).2 = entropy w.
Proof.
  intros w. split; [reflexivity |].
  apply (download_changes_no_file 2 (FileDownloadRequest.mk "a") w).
  reflexivity.
Defined.

(** X3. The download of a file that does not exist fails on the open with
    the wrapped "no such file" error; the open is the only call of the
    session: nothing is sent, no descriptor is left, no file is created. *)
Theorem download_missing_file (n : nat) (req : FileDownloadRequest.t)
    (w : World) :
  files w !! FileDownloadRequest.Filename req = None →
  next_fault (os_faults w) = None →
  let '(o, w') := download n req w in
  o = Returned (Some (Errorf "failed to open file" (Some (SysErr ENOENT))))
  ∧ new_events w w'
    = [EvOpen (FileDownloadRequest.Filename req) O_RDONLY (inl ENOENT)]
  ∧ files w' = files w
  ∧ fds w' = fds w.
Proof.
  intros Hnone Hflt.
  destruct (download_cases n req w)
    as [(e & [He | (_ & _ & ->)] & ->) | [(e & _ & [x Hx] & _)
                                        | (_ & [x Hx] & _)]];
    try congruence.
  simpl. split; [done |]. split; [| done].
  apply new_events_app. reflexivity.
Qed.

Lemma download_missing_file_witness :
  let w := mkWorld {[ "a" := [Byte.x41] ]} ∅ [] [] [] [] [] in
  let '(o, w') := download 4 (FileDownloadRequest.mk "b") w in
  o = Returned (Some (Errorf "failed to open file" (Some (SysErr ENOENT))))
  ∧ new_events w w' = [EvOpen "b" O_RDONLY (inl ENOENT)]
  ∧ files w' = files w
  ∧ fds w' = fds w.
Proof.
  intros w.
  apply (download_missing_file 4 (FileDownloadRequest.mk "b") w); reflexivity.
Defined.


(** ** The download of a file that nothing disturbs *)

Lemma f_Read_data (fh k : nat) (w : World) (d : file_desc) :
  fds w !! fh = Some d →
  can_read (fd_flags d) = true →
  interf w = [] →
  next_fault (os_faults w) = None →
  drop (fd_off d) (file_content w (fd_path d)) ≠ [] →
  let chunk := take (S k) (drop (fd_off d) (file_content w (fd_path d))) in
  f_Read fh (S k) w
  = ((chunk, None),
     log (set_fds (set_os_faults w (tail (os_faults w)))
            (<[fh := FileDesc (fd_path d) (fd_flags d)
                              (fd_off d + length chunk)]> (fds w)))
         (EvRead fh (ReadData chunk))).
Proof.
  intros Hfd Hr Hint Hflt Hdrop chunk.
  unfold f_Read. rewrite (interfere_idle _ Hint).
  unfold next_os_fault. rewrite Hflt. simpl fds. rewrite Hfd, Hr.
  cbn [negb].
  change (file_content (set_os_faults w (tail (os_faults w))) (fd_path d))
    with (file_content w (fd_path d)).
  fold chunk.
  destruct chunk as [| b bs] eqn:Hc; [| reflexivity].
  exfalso. apply Hdrop. subst chunk.
  destruct (drop _ _); [done | discriminate].
Qed.

Lemma sent_total_wrap (tr : list event) :
  ∀ a, sent_total tr (int64_wrap a)
       = int64_wrap (a + Z.of_nat (length (downloaded tr))).
Proof.
  unfold sent_total, downloaded.
  induction (sent tr) as [| m l IH]; intros a; simpl.
  - by rewrite Z.add_0_r.
  - rewrite int64_add_wrap_l, IH, length_app. f_equal. lia.
Qed.

Lemma take_chunk_rest (n : nat) (rest : list byte) :
  take n rest ++ drop (length (take n rest)) rest = rest.
Proof.
  rewrite length_take.
  destruct (decide (n ≤ length rest)).
  - rewrite Nat.min_l by done. apply take_drop.
  - rewrite Nat.min_r by lia. rewrite take_ge, drop_ge by lia.
    by rewrite app_nil_r.
Qed.

(** On a file that nothing disturbs the loop reads to the end of the file
    and sends it whole, in order. *)
Lemma download_loop_quiescent (n : nat) (req : FileDownloadRequest.t)
    (fh : nat) (size : Z) (name : string) (fl : Z) :
  0 < n →
  can_read fl = true →
  ∀ fuel total w off,
    fds w !! fh = Some (FileDesc name fl off) →
    interf w = [] →
    healthy (os_faults w) →
    healthy (net_faults w) →
    length (file_content w name) - off < fuel →
    ∃ r w' tr,
      download_loop n fuel req fh size total w = (Returned r, w')
      ∧ trace w' = trace w ++ tr
      ∧ eof_seen tr = true
      ∧ downloaded tr = drop off (file_content w name).
Proof.
  intros Hn Hfl. destruct n as [| k]; [lia |].
  induction fuel as [| fuel IH]; intros total w off Hfd Hi Hos Hnet Hfuel;
    [lia |].
  apply healthy_tail in Hos as [Hflt Hos].
  simpl. unfold_M.
  destruct (drop off (file_content w name)) as [| b rest] eqn:Hdrop.
  - rewrite (f_Read_eof fh k w _ Hfd Hfl Hi Hflt Hdrop).
    destruct (negb (total =? size)%Z); eexists _, _, [_];
      (split; [reflexivity |]); done.
  - assert (Hne : drop (fd_off (FileDesc name fl off))
                    (file_content w (fd_path (FileDesc name fl off))) ≠ [])
      by (simpl; by rewrite Hdrop).
    rewrite (f_Read_data fh k w _ Hfd Hfl Hi Hflt Hne). cbv zeta.
    cbn [fd_path fd_off fd_flags]. rewrite Hdrop.
    set (chunk := take (S k) (b :: rest)).
    rewrite stream_Send_eq.
    apply healthy_tail in Hnet as [Hsend Hnet].
    unfold next_send_result.
    change (net_faults (log _ _)) with (net_faults w). rewrite Hsend.
    simpl fmap.
    cbv iota.
    set (w2 := log (set_net_faults _ _) _).
    destruct (IH (int64_add total (int64_of_int (length chunk))) w2
                 (off + length chunk)) as (r & w' & tr & Hrun & Htr & Heof & Hdl).
    + simpl. apply lookup_insert_eq.
    + exact Hi.
    + exact Hos.
    + exact Hnet.
    + change (file_content w2 name) with (file_content w name).
      assert (length (b :: rest) = length (file_content w name) - off)
        by (rewrite <- Hdrop; apply length_drop).
      assert (0 < length chunk) by (subst chunk; simpl; lia).
      simpl in *. lia.
    + exists r, w', (EvRead fh (ReadData chunk)
                      :: EvSend (FileDownloadResponse.mk ""
                                   (FileDownloadRequest.Filename req) chunk size)
                      :: tr).
      split; [exact Hrun |].
      split. { rewrite Htr. simpl. by rewrite <- !app_assoc. }
      split; [exact Heof |].
      change (downloaded (?a :: ?b :: tr)) with (chunk ++ downloaded tr).
      rewrite Hdl. change (file_content w2 name) with (file_content w name).
      rewrite <- drop_drop, Hdrop. apply take_chunk_rest.
Qed.

(** The download of a file that nothing disturbs. *)
Lemma download_quiescent (n : nat) (name : string) (content : list byte)
    (w : World) :
  0 < n →
  files w !! name = Some content →
  interf w = [] →
  healthy (os_faults w) →
  healthy (net_faults w) →
  let '(o, w') := download n (FileDownloadRequest.mk name) w in
  o = Returned None
  ∧ downloaded (new_events w w') = content
  ∧ files w' !! name = Some content.
Proof.
  intros Hn Hfile Hi Hos Hnet.
  apply healthy_tail in Hos as [Hf1 Hos]. apply healthy_tail in Hos as [Hf2 Hos].
  destruct (download_cases n (FileDownloadRequest.mk name) w)
    as [(e & [He | (_ & He & _)] & _) | [(e & _ & _ & He & _)
                                       | (_ & _ & _ & o & w3 & Hloop & Hrun)]];
    try (simpl in *; congruence).
  rewrite Hrun. cbn [FileDownloadRequest.Filename] in *.
  set (fh := fresh (dom (fds w))) in *.
  set (w2 := log (set_os_faults _ _) (EvStat fh)) in *.
  destruct (download_loop_quiescent n (FileDownloadRequest.mk name) fh
              (stat_size w name) name O_RDONLY Hn eq_refl
              (S (read_budget w2 fh)) 0 w2 0)
    as (r & w3' & tr & Hq & Htr & Heof & Hdl).
  { simpl. apply lookup_insert_eq. }
  { exact Hi. }
  { exact Hos. }
  { exact Hnet. }
  { unfold read_budget. simpl fds. rewrite lookup_insert_eq.
    cbn [fd_path fd_off]. lia. }
  rewrite Hq in Hloop. inversion Hloop; subst o w3'. clear Hloop.
  destruct (download_loop_spec _ _ _ _ _ _ _ _ _ Hq)
    as (tr' & Htr' & _ & _ & _ & _ & _ & _ & Hres & _).
  rewrite Htr in Htr'. apply app_inv_head in Htr'. subst tr'.
  destruct (download_loop_frame _ _ _ _ _ _ _ _ _ Hq)
    as (_ & _ & _ & Hidle & _).
  destruct (Hidle Hi) as [Hfiles _]. change (files w2) with (files w) in Hfiles.
  rewrite drop_0 in Hdl.
  change (file_content w2 name) with (file_content w name) in Hdl.
  assert (Hc : file_content w name = content)
    by (unfold file_content; by rewrite Hfile).
  rewrite Hc in Hdl.
  specialize (Hres Heof).
  change 0%Z with (int64_wrap 0) in Hres. rewrite sent_total_wrap in Hres.
  rewrite Hdl in Hres. unfold stat_size in Hres. rewrite Hc in Hres.
  rewrite decide_True in Hres by reflexivity.
  split; [by rewrite Hres |].
  split; [| simpl; by rewrite Hfiles].
  erewrite new_events_app.
  2:{ simpl. rewrite Htr. simpl. rewrite <- !app_assoc. reflexivity. }
  unfold downloaded in *. simpl app. rewrite sent_snoc_close by done.
  exact Hdl.
Qed.


(** X5. The download of a file that no other process touches, with no
    failure of the file system or of the transport and a buffer that is
    not empty, returns success, and the contents of its messages, put end
    to end, are the file byte for byte; the file itself is left as it
    was. *)
Theorem download_whole_file (n : nat) (name : string) (content : list byte)
    (w : World) :
  0 < n →
  files w !! name = Some content →
  interf w = [] →
  healthy (os_faults w) →
  healthy (net_faults w) →
  let '(o, w') := download n (FileDownloadRequest.mk name) w in
  o = Returned None
  ∧ downloaded (new_events w w') = content
  ∧ files w' !! name = Some content.
Proof. apply download_quiescent. Qed.

Lemma download_whole_file_witness :
  let content := [Byte.x41; Byte.x42; Byte.x43; Byte.x44; Byte.x45] in
  let w := mkWorld {[ "a" := content ]} ∅ [] [] [] [] [] in
  0 < 2
  ∧ let '(o, w') := download 2 (FileDownloadRequest.mk "a") w in
    o = Returned None
    ∧ downloaded (new_events w w') = content
    ∧ files w' !! "a" = Some content.
Proof.
  intros content w. split; [lia |].
  apply (download_whole_file 2 "a" content w);
    [lia | reflexivity | reflexivity | constructor | constructor].
Defined.

(** ** A send that fails *)

Lemma first_fault_cases {A} (script : list (option A)) (k : nat) :
  first_fault script = Some k →
  (∃ e, next_fault script = Some e ∧ k = 0)
  ∨ (∃ k', next_fault script = None ∧ k = S k'
           ∧ first_fault (tail script) = Some k').
Proof.
  destruct script as [| [e |] s]; simpl; [done | |].
  - intros [= Hk]. subst k. left. eauto.
  - destruct (first_fault s) as [k' |]; simpl; [| done].
    intros [= Hk]. subst k. right. eauto.
Qed.

Lemma download_loop_send_stop (n : nat) (req : FileDownloadRequest.t)
    (fh : nat) (size : Z) (fuel : nat) :
  ∀ total w o w' k,
    download_loop n fuel req fh size total w = (o, w') →
    first_fault (net_faults w) = Some k →
    ∃ tr,
      trace w' = trace w ++ tr
      ∧ length (sent tr) ≤ S k
      ∧ (length (sent tr) = S k →
         ∃ e, o = Returned (Some (Errorf "failed to send file" (Some e)))).
Proof.
  induction fuel as [| fuel IH]; intros total w o w' k Hrun Hk.
  { simpl in Hrun. unfold_M. inversion Hrun; subst.
    exists []. rewrite app_nil_r. simpl. split; [done |]. split; lia. }
  simpl in Hrun. unfold_M.
  destruct (f_Read fh n w) as [[chunk err] w1] eqn:Hread.
  apply f_Read_spec in Hread as (_ & _ & Hnet & _ & _ & res & Htr & Herr).
  destruct err as [err |].
  - assert (Hw : w' = w1).
    { destruct err; try destruct (negb _); by inversion Hrun. }
    subst w'. exists [EvRead fh res]. split; [exact Htr |].
    assert (Hs : sent [EvRead fh res] = []) by reflexivity.
    rewrite Hs. simpl. split; lia.
  - destruct Herr as (-> & _).
    rewrite stream_Send_eq in Hrun. unfold next_send_result in Hrun.
    rewrite Hnet in Hrun.
    set (m := FileDownloadResponse.mk "" (FileDownloadRequest.Filename req)
                chunk size) in *.
    destruct (first_fault_cases _ _ Hk)
      as [(e & He & ->) | (k' & He & -> & Hk')]; rewrite He in Hrun;
      simpl in Hrun.
    + inversion Hrun; subst.
      exists [EvRead fh (ReadData chunk); EvSend m].
      split; [simpl; by rewrite Htr, <- app_assoc |].
      change (sent _) with [m]. simpl. split; [lia | eauto].
    + destruct (IH _ _ _ _ k' Hrun) as (tr & Htr' & Hle & Heq);
        [exact Hk' |].
      exists (EvRead fh (ReadData chunk) :: EvSend m :: tr).
      split. { rewrite Htr'. simpl. by rewrite Htr, <- !app_assoc. }
      change (sent (?a :: ?b :: tr)) with (m :: sent tr). simpl.
      split; [lia |]. intros H. apply Heq. lia.
Qed.

(** X6. A send that fails ends the download: when the first send that the
    transport refuses is the one of index k, the session sends at most
    k + 1 messages, and when it has sent that many its result is the
    wrapped error of the send. *)
Theorem download_stops_at_failed_send (n : nat) (req : FileDownloadRequest.t)
    (w : World) (k : nat) :
  first_fault (net_faults w) = Some k →
  let '(o, w') := download n req w in
  length (sent (new_events w w')) ≤ S k
  ∧ (length (sent (new_events w w')) = S k →
     ∃ e, o = Returned (Some (Errorf "failed to send file" (Some e)))).
Proof.
  intros Hk.
  destruct (download_cases n req w)
    as [(e & _ & ->) | [(e & _ & _ & _ & ->)
                       | (_ & _ & _ & o & w3 & Hloop & ->)]].
  - erewrite new_events_app by reflexivity. simpl. split; lia.
  - erewrite new_events_app by (simpl; by rewrite <- !app_assoc).
    simpl. split; lia.
  - destruct (download_loop_send_stop _ _ _ _ _ _ _ _ _ k Hloop Hk)
      as (tr & Htr & Hle & Heq).
    erewrite new_events_app.
    2:{ simpl. rewrite Htr. simpl. rewrite <- !app_assoc. reflexivity. }
    simpl app. rewrite sent_snoc_close by done. done.
Qed.

Lemma download_stops_at_failed_send_witness :
  let w := mkWorld {[ "a" := [Byte.x41; Byte.x42; Byte.x43; Byte.x44; Byte.x45] ]}
                   ∅ [] [None; Some ECANCELED] [] [] [] in
  first_fault (net_faults w) = Some 1
  ∧ let '(o, w') := download 2 (FileDownloadRequest.mk "a") w in
    length (sent (new_events w w')) ≤ 2
    ∧ (length (sent (new_events w w')) = 2 →
       ∃ e, o = Returned (Some (Errorf "failed to send file" (Some e)))).
Proof.
  intros w. split; [reflexivity |].
  apply (download_stops_at_failed_send 2 (FileDownloadRequest.mk "a") w 1).
  reflexivity.
Defined.

(** ** The file of an upload *)

Lemma drop_of_tail {A} (n : nat) (l : list A) :
  drop n (tail l) = drop (S n) l.
Proof. destruct l; simpl; [apply drop_nil | reflexivity]. Qed.

(** With no failure of the system among its writes, the loop stores the
    chunks of the messages it receives, in order, and goes on with what
    follows them in the stream. *)
Lemma upload_loop_stores fh name msgs :
  ∀ rest total expected w pre suf,
    writing w fh name pre suf →
    healthy (take (length msgs) (os_faults w)) →
    ∃ w1 tr,
      upload_loop (map RecvMsg msgs ++ rest) (running fh total expected) w
      = upload_loop rest (running fh (upload_total msgs total) expected) w1
      ∧ writing w1 fh name (pre ++ uploaded msgs)
                (drop (length (uploaded msgs)) suf)
      ∧ os_faults w1 = drop (length msgs) (os_faults w)
      ∧ net_faults w1 = net_faults w
      ∧ interf w1 = interf w
      ∧ trace w1 = trace w ++ tr
      ∧ acks tr = []
      ∧ (∀ p, p ≠ name → files w1 !! p = files w !! p).
Proof.
  induction msgs as [| m msgs IH]; intros rest total expected w pre suf Hw Hh.
  - exists w, []. simpl. rewrite !app_nil_r, drop_0. done.
  - simpl in Hh. apply healthy_next in Hh as [Hnone Hh].
    destruct Hw as (fl & Hfd & Hcw & Happ & Hfile).
    assert (Hw : writing w fh name pre suf) by (exists fl; done).
    destruct (writing_step _ _ _ _ _ (FileUploadRequest.Content m) Hw Hnone)
      as (w1 & Hwrite & Hw1 & Hos & Hnet & Htr).
    assert (Hframe : interf w1 = interf w
                     ∧ ∀ p, p ≠ name → files w1 !! p = files w !! p).
    { rewrite (f_Write_eq _ _ _ _ Hfd Hcw Happ), Hnone in Hwrite.
      simpl in Hwrite. inversion Hwrite; subst w1. simpl.
      split; [done |]. intros p Hp. by rewrite lookup_insert_ne. }
    destruct Hframe as [Hint Hother].
    rewrite <- Hos in Hh.
    destruct (IH rest (int64_add total
                    (int64_of_int (length (FileUploadRequest.Content m))))
                 expected w1 _ _ Hw1 Hh)
      as (w2 & tr & Hloop & Hw2 & Hos2 & Hnet2 & Hint2 & Htr2 & Hacks & Hother2).
    exists w2, (EvWrite fh (FileUploadRequest.Content m)
                        (length (FileUploadRequest.Content m)) :: tr).
    split.
    { change (map RecvMsg (m :: msgs) ++ rest)
        with (RecvMsg m :: (map RecvMsg msgs ++ rest)).
      rewrite upload_loop_running, Hwrite. exact Hloop. }
    rewrite uploaded_cons, length_app, <- drop_drop, app_assoc.
    split; [exact Hw2 |].
    split. { rewrite Hos2, Hos. apply drop_of_tail. }
    split; [congruence |]. split; [congruence |].
    split. { rewrite Htr2, Htr, <- app_assoc. reflexivity. }
    split; [exact Hacks |].
    intros p Hp. rewrite Hother2, Hother; done.
Qed.

Lemma upload_session_stores (first : FileUploadRequest.t)
    (more : list FileUploadRequest.t) (rest : list recv_event) (w : World) :
  let msgs := first :: more in
  let name := FileUploadRequest.Filename first in
  let fh := fresh (dom (fds w)) in
  healthy (take (S (length msgs)) (os_faults w)) →
  ∃ w1 tr,
    upload (map RecvMsg msgs ++ rest) w
    = upload_loop rest
        (running fh (received msgs) (FileUploadRequest.Size first)) w1
    ∧ writing w1 fh name (uploaded msgs)
              (drop (length (uploaded msgs)) (file_content w name))
    ∧ os_faults w1 = drop (S (length msgs)) (os_faults w)
    ∧ net_faults w1 = net_faults w
    ∧ interf w1 = interf w
    ∧ trace w1 = trace w ++ tr
    ∧ acks tr = []
    ∧ (∀ p, p ≠ name → files w1 !! p = files w !! p).
Proof.
  intros msgs name fh Hh.
  change (map RecvMsg msgs ++ rest)
    with (RecvMsg first :: (map RecvMsg more ++ rest)).
  rewrite upload_first.
  apply healthy_next in Hh as [Hnone Hh]. rewrite Hnone.
  change (RecvMsg first :: (map RecvMsg more ++ rest))
    with (map RecvMsg msgs ++ rest).
  destruct (upload_loop_stores fh name msgs rest 0
              (FileUploadRequest.Size first) _ _ _ (writing_opened name w) Hh)
    as (w1 & tr & Hloop & Hw & Hos & Hnet & Hint & Htr & Hacks & Hother).
  exists w1, (EvOpen name upload_flags (inr fh) :: tr).
  split; [exact Hloop |]. split; [exact Hw |].
  split. { rewrite Hos. simpl. apply drop_of_tail. }
  split; [exact Hnet |]. split; [exact Hint |].
  split. { rewrite Htr. simpl. by rewrite <- app_assoc. }
  split; [exact Hacks |].
  intros p Hp. rewrite (Hother p Hp). simpl. by rewrite lookup_insert_ne.
Qed.

Lemma upload_eof_files (v : upload_vars) (w : World) :
  files (upload_eof v w).2 = files w
  ∧ acks (new_events w (upload_eof v w).2)
    = (if (totalBytes v =? expectedSize v)%Z
       then [newUploadResponse "Upload received successfully"] else []).
Proof.
  unfold upload_eof. destruct (totalBytes v =? expectedSize v)%Z; simpl.
  - split; [done |]. by erewrite new_events_app; [| simpl; reflexivity].
  - split; [done |]. unfold new_events. by rewrite drop_all.
Qed.

(** X7. In an upload that the file system does not interrupt, every chunk
    is stored in the file named by the first message, in order from offset
    0, whether or not the size check at the end of the stream passes: a
    size mismatch is reported with the file left on disk as written, and
    no other file is touched. *)
Theorem upload_stores_every_chunk (first : FileUploadRequest.t)
    (more : list FileUploadRequest.t) (w : World) :
  let msgs := first :: more in
  let name := FileUploadRequest.Filename first in
  healthy (take (S (length msgs)) (os_faults w)) →
  let '(r, w') := upload (map RecvMsg msgs) w in
  files w' !! name
  = Some (uploaded msgs
          ++ drop (length (uploaded msgs)) (file_content w name))
  ∧ (received msgs ≠ FileUploadRequest.Size first →
     r = Some (ErrSizeMismatch (FileUploadRequest.Size first) (received msgs)))
  ∧ (∀ p, p ≠ name → files w' !! p = files w !! p).
Proof.
  intros msgs name Hh.
  destruct (upload_session_stores first more [] w Hh)
    as (w1 & tr & Hrun & (fl & _ & _ & _ & Hfile) & _ & _ & _ & _ & _ & Hother).
  rewrite app_nil_r in Hrun. fold msgs in Hrun. rewrite Hrun.
  change (upload_loop [] ?v w1) with (upload_eof v w1).
  pose proof (upload_eof_files
                (running (fresh (dom (fds w))) (received msgs)
                         (FileUploadRequest.Size first)) w1) as [Hf _].
  destruct (upload_eof _ w1) as [r w'] eqn:Heof. simpl in Hf.
  split; [by rewrite Hf |].
  split; [| intros p Hp; rewrite Hf; by apply Hother].
  intros Hne. unfold upload_eof, running in Heof.
  cbn [totalBytes expectedSize] in Heof.
  destruct (Z.eqb_spec (received msgs) (FileUploadRequest.Size first));
    [done |].
  simpl in Heof. unfold_M. by inversion Heof.
Qed.

Lemma upload_stores_every_chunk_witness :
  let first := FileUploadRequest.mk "a" [Byte.x30; Byte.x31] 9 in
  let more := [FileUploadRequest.mk "a" [Byte.x32] 9] in
  let w := mkWorld {[ "b" := [Byte.x41] ]} ∅ [] [] [] [] [] in
  let msgs := first :: more in
  let '(r, w') := upload (map RecvMsg msgs) w in
  files w' !! "a"
  = Some (uploaded msgs ++ drop (length (uploaded msgs)) (file_content w "a"))
  ∧ (received msgs ≠ 9%Z → r = Some (ErrSizeMismatch 9 (received msgs)))
  ∧ (∀ p, p ≠ "a" → files w' !! p = files w !! p).
Proof.
  intros first more w msgs.
  apply (upload_stores_every_chunk first more w). constructor.
Defined.

(** ** Uploads that fail *)

(** X8. An error of the transport in the middle of an upload ends the
    session with the wrapped receive error, whatever would have followed
    it in the stream: no acknowledgement is sent, and the chunks received
    before the error stay in the file. *)
Theorem upload_receive_error (msgs : list FileUploadRequest.t) (e : errno)
    (rest : list recv_event) (w : World) :
  healthy (take (upload_os_calls msgs) (os_faults w)) →
  let '(r, w') := upload (map RecvMsg msgs ++ RecvErr e :: rest) w in
  r = Some (Errorf "failed to receive file" (Some (SysErr e)))
  ∧ acks (new_events w w') = []
  ∧ match msgs with
    | [] => files w' = files w
    | first :: _ =>
        files w' !! FileUploadRequest.Filename first
        = Some (uploaded msgs
                ++ drop (length (uploaded msgs))
                        (file_content w (FileUploadRequest.Filename first)))
    end.
Proof.
  intros Hh. destruct msgs as [| first more].
  - simpl. unfold new_events. by rewrite drop_all.
  - destruct (upload_session_stores first more (RecvErr e :: rest) w Hh)
      as (w1 & tr & -> & (fl & _ & _ & _ & Hfile) & _ & _ & _ & Htr & Hacks & _).
    simpl. unfold_M. rewrite (new_events_app _ _ _ Htr). done.
Qed.

Lemma upload_receive_error_witness :
  let msgs := [FileUploadRequest.mk "a" [Byte.x30; Byte.x31] 5] in
  let rest := [RecvMsg (FileUploadRequest.mk "a" [Byte.x32] 5)] in
  let w := mkWorld ∅ ∅ [] [] [] [] [] in
  let '(r, w') := upload (map RecvMsg msgs ++ RecvErr ECANCELED :: rest) w in
  r = Some (Errorf "failed to receive file" (Some (SysErr ECANCELED)))
  ∧ acks (new_events w w') = []
  ∧ files w' !! "a"
    = Some (uploaded msgs ++ drop (length (uploaded msgs)) (file_content w "a")).
Proof.
  intros msgs rest w.
  apply (upload_receive_error msgs ECANCELED rest w). constructor.
Defined.

Lemma next_fault_drop {A} (script : list (option A)) (k : nat) (flt : A) :
  script !! k = Some (Some flt) → next_fault (drop k script) = Some flt.
Proof.
  revert script. induction k as [| k IH]; intros [| o s]; simpl; try done.
  - by intros [= ->].
  - apply IH.
Qed.

(** X9. A write that fails ends the upload with the wrapped write error,
    whatever follows in the stream, and no acknowledgement is sent. *)
Theorem upload_write_failure (pre : list FileUploadRequest.t)
    (m : FileUploadRequest.t) (rest : list recv_event) (flt : fault)
    (w : World) :
  healthy (take (S (length pre)) (os_faults w)) →
  os_faults w !! S (length pre) = Some (Some flt) →
  let '(r, w') := upload (map RecvMsg pre ++ RecvMsg m :: rest) w in
  r = Some (Errorf "failed to write file" (Some (SysErr (fault_errno flt))))
  ∧ acks (new_events w w') = [].
Proof.
  intros Hh Hflt. apply next_fault_drop in Hflt.
  destruct pre as [| first more].
  - simpl app. rewrite upload_first.
    apply healthy_next in Hh as [Hnone _]. rewrite Hnone.
    rewrite upload_loop_running.
    pose proof (writing_opened (FileUploadRequest.Filename m) w) as Hw.
    destruct (writing_fault _ _ _ _ _ (FileUploadRequest.Content m) flt Hw)
      as (n & w1 & Hwrite).
    { simpl. by rewrite <- drop_of_tail, drop_0 in Hflt. }
    rewrite Hwrite. split; [done |].
    apply f_Write_trace in Hwrite.
    erewrite new_events_app.
    2:{ rewrite Hwrite. simpl. rewrite <- app_assoc. reflexivity. }
    done.
  - destruct (upload_session_stores first more (RecvMsg m :: rest) w Hh)
      as (w1 & tr & -> & Hw & Hos & _ & _ & Htr & Hacks & _).
    rewrite upload_loop_running.
    destruct (writing_fault _ _ _ _ _ (FileUploadRequest.Content m) flt Hw)
      as (n & w2 & Hwrite).
    { by rewrite Hos. }
    rewrite Hwrite. split; [done |].
    apply f_Write_trace in Hwrite.
    erewrite new_events_app.
    2:{ rewrite Hwrite, Htr, <- app_assoc. reflexivity. }
    unfold acks in *. rewrite omap_app, Hacks. done.
Qed.

Lemma upload_write_failure_witness :
  let pre := [FileUploadRequest.mk "a" [Byte.x30; Byte.x31] 3] in
  let m := FileUploadRequest.mk "a" [Byte.x32] 3 in
  let w := mkWorld ∅ ∅ [None; None; Some (FaultErr ENOSPC)] [] [] [] [] in
  let '(r, w') := upload (map RecvMsg pre ++ RecvMsg m :: []) w in
  r = Some (Errorf "failed to write file" (Some (SysErr ENOSPC)))
  ∧ acks (new_events w w') = [].
Proof.
  intros pre m w.
  apply (upload_write_failure pre m [] (FaultErr ENOSPC) w).
  - by repeat constructor.
  - reflexivity.
Defined.

(** X10. An open that fails ends the upload with the wrapped open error:
    the failed open is the only call of the session, it is not tried again
    on the messages that follow, and no file is created or changed. *)
Theorem upload_open_failure (first : FileUploadRequest.t)
    (rest : list recv_event) (flt : fault) (w : World) :
  next_fault (os_faults w) = Some flt →
  let '(r, w') := upload (RecvMsg first :: rest) w in
  r = Some (Errorf "failed to open file" (Some (SysErr (fault_errno flt))))
  ∧ new_events w w'
    = [EvOpen (FileUploadRequest.Filename first) (Z.lor O_WRONLY O_CREATE)
              (inl (fault_errno flt))]
  ∧ files w' = files w
  ∧ fds w' = fds w.
Proof.
  intros Hflt. rewrite upload_first, Hflt.
  split; [done |]. split; [| done].
  apply new_events_app. reflexivity.
Qed.

Lemma upload_open_failure_witness :
  let first := FileUploadRequest.mk "/root/a" [Byte.x30] 1 in
  let w := mkWorld ∅ ∅ [Some (FaultErr EACCES)] [] [] [] [] in
  let '(r, w') := upload [RecvMsg first; RecvMsg first] w in
  r = Some (Errorf "failed to open file" (Some (SysErr EACCES)))
  ∧ new_events w w'
    = [EvOpen "/root/a" (Z.lor O_WRONLY O_CREATE) (inl EACCES)]
  ∧ files w' = files w
  ∧ fds w' = fds w.
Proof.
  intros first w.
  apply (upload_open_failure first [RecvMsg first] (FaultErr EACCES) w).
  reflexivity.
Defined.

(** After [once] has run the filenames of the messages are not read. *)
Lemma upload_loop_set_names stream :
  ∀ names v w,
    once_done v = true →
    upload_loop (set_names names stream) v w = upload_loop stream v w.
Proof.
  induction stream as [| [req | e] rest IH]; intros names v w Hv.
  - reflexivity.
  - destruct names as [| s names]; [reflexivity |].
    simpl. unfold upload_once. rewrite Hv. unfold_M. simpl.
    destruct (f v) as [fh |]; [| reflexivity].
    destruct (f_Write fh (FileUploadRequest.Content req) w) as [[n [err |]] w1];
      [reflexivity |].
    by apply IH.
  - reflexivity.
Qed.

(** X11. Only the first message of an upload names the destination: other
    filenames on the messages after it change neither the result nor any
    call, and their chunks go to the file that the first message named. *)
Theorem upload_ignores_later_filenames (first : FileUploadRequest.t)
    (rest : list recv_event) (names : list string) (w : World) :
  upload (RecvMsg first :: set_names names rest) w
  = upload (RecvMsg first :: rest) w.
Proof.
  rewrite !upload_first.
  destruct (next_fault (os_faults w)); [reflexivity |].
  rewrite !upload_loop_running.
  destruct (f_Write _ _ _) as [[n [e |]] w1]; [reflexivity |].
  by apply upload_loop_set_names.
Qed.

(** ** The acknowledgement *)

Lemma os_OpenFile_trace name flag perm w :
  ∃ res, trace (os_OpenFile name flag perm w).2
         = trace w ++ [EvOpen name flag res].
Proof.
  unfold os_OpenFile, next_os_fault. simpl.
  destruct (next_fault (os_faults w)); simpl; [eauto |].
  destruct (files w !! name); [| destruct (flag_set flag O_CREATE)];
    simpl; eauto.
Qed.

Lemma upload_loop_acks stream :
  ∀ v w r w',
    upload_loop stream v w = (r, w') →
    ∃ tr,
      trace w' = trace w ++ tr
      ∧ ((acks tr = [] ∧ r ≠ None)
         ∨ (∃ tr0,
              tr = tr0 ++ [EvSendAndClose
                             (newUploadResponse "Upload received successfully")]
              ∧ acks tr0 = [])).
Proof.
  induction stream as [| [req | e] rest IH]; intros v w r w' Hrun.
  - simpl in Hrun. unfold upload_eof in Hrun.
    destruct (negb _) in Hrun.
    + unfold_M. inversion Hrun; subst. exists []. rewrite app_nil_r.
      split; [done |]. by left.
    + rewrite stream_SendAndClose_eq in Hrun. inversion Hrun; subst.
      eexists [_]. split; [simpl; reflexivity |]. right. by exists [].
  - simpl in Hrun. unfold_M.
    destruct (upload_once req v w) as [[v1 err] w1] eqn:Honce.
    assert (Hpre : ∃ pre, trace w1 = trace w ++ pre ∧ acks pre = []).
    { unfold upload_once in Honce. destruct (once_done v).
      - unfold_M. inversion Honce; subst. exists []. by rewrite app_nil_r.
      - unfold_M.
        destruct (os_OpenFile_trace (FileUploadRequest.Filename req)
                    (Z.lor O_WRONLY O_CREATE) 420 w) as [res Hres].
        destruct (os_OpenFile _ _ _ w) as [[fh e] w0].
        inversion Honce; subst. eauto. }
    destruct Hpre as (pre & Hpre & Hapre).
    destruct err as [e |], (f v1) as [fh |];
      try (inversion Hrun; subst; exists pre; split; [done |]; by left).
    destruct (f_Write fh (FileUploadRequest.Content req) w1)
      as [[n [e |]] w2] eqn:Hwrite; apply f_Write_trace in Hwrite.
    + inversion Hrun; subst. eexists (pre ++ [_]).
      split; [by rewrite Hwrite, Hpre, <- app_assoc |].
      left. unfold acks in *. rewrite omap_app, Hapre. done.
    + apply IH in Hrun as (tr & Htr & Hcase).
      exists (pre ++ EvWrite fh (FileUploadRequest.Content req) n :: tr).
      split.
      { rewrite Htr, Hwrite, Hpre, <- !app_assoc. reflexivity. }
      destruct Hcase as [[Ha Hr] | (tr0 & -> & Ha)].
      * left. unfold acks in *. rewrite omap_app, Hapre. done.
      * right.
        exists (pre ++ EvWrite fh (FileUploadRequest.Content req) n :: tr0).
        split; [by rewrite <- app_assoc |].
        unfold acks in *. rewrite omap_app, Hapre. done.
  - simpl in Hrun. unfold_M. inversion Hrun; subst. exists [].
    rewrite app_nil_r. split; [done |]. by left.
Qed.

(** X12. Whatever the stream and whatever fails, an upload either sends no
    acknowledgement and returns an error, or sends the success
    acknowledgement exactly once, as its last call: nil is never returned
    without it. *)
Theorem upload_ack_discipline (stream : list recv_event) (w : World) :
  let '(r, w') := upload stream w in
  let tr := new_events w w' in
  (acks tr = [] ∧ r ≠ None)
  ∨ (acks tr = [newUploadResponse "Upload received successfully"]
     ∧ last tr
       = Some (EvSendAndClose (newUploadResponse "Upload received successfully"))).
Proof.
  destruct (upload stream w) as [r w'] eqn:Hrun.
  apply upload_loop_acks in Hrun as (tr & Htr & Hcase).
  cbv zeta. rewrite (new_events_app _ _ _ Htr).
  destruct Hcase as [H | (tr0 & -> & Ha)]; [by left |].
  right. split; [| apply last_snoc].
  unfold acks in *. rewrite omap_app, Ha. done.
Qed.

(** ** The files that an upload leaves alone *)

Lemma f_Write_frame (fd : nat) (b : list byte) (w : World) (d : file_desc) :
  fds w !! fd = Some d →
  (∃ d1, fds (f_Write fd b w).2 !! fd = Some d1 ∧ fd_path d1 = fd_path d)
  ∧ (∀ p, p ≠ fd_path d → files (f_Write fd b w).2 !! p = files w !! p)
  ∧ interf (f_Write fd b w).2 = interf w
  ∧ entropy (f_Write fd b w).2 = entropy w.
Proof.
  intros Hfd. unfold f_Write, next_os_fault. simpl. rewrite Hfd.
  destruct (negb (can_write (fd_flags d))); [simpl; eauto 6 |].
  destruct (next_fault (os_faults w)); simpl;
    (split; [rewrite lookup_insert_eq; eauto |]);
    (split; [intros p Hp; by rewrite lookup_insert_ne |]); done.
Qed.

Lemma upload_loop_frame (fh : nat) (name : string) stream :
  ∀ total expected w d,
    fds w !! fh = Some d → fd_path d = name →
    (∀ p, p ≠ name →
          files (upload_loop stream (running fh total expected) w).2 !! p
          = files w !! p)
    ∧ interf (upload_loop stream (running fh total expected) w).2 = interf w
    ∧ entropy (upload_loop stream (running fh total expected) w).2 = entropy w.
Proof.
  induction stream as [| [req | e] rest IH]; intros total expected w d Hfd Hd.
  - simpl. unfold upload_eof. destruct (negb _); done.
  - rewrite upload_loop_running.
    destruct (f_Write_frame fh (FileUploadRequest.Content req) w d Hfd)
      as ((d1 & Hfd1 & Hd1) & Hother & Hint & Hent).
    destruct (f_Write fh (FileUploadRequest.Content req) w)
      as [[n [err |]] w1]; simpl in *.
    + rewrite Hd in Hother. done.
    + destruct (IH (int64_add total (int64_of_int n)) expected w1 d1 Hfd1)
        as (Ho & Hi & He); [congruence |].
      split; [| split; congruence].
      intros p Hp. rewrite (Ho p Hp). apply Hother. congruence.
  - done.
Qed.

(** X13. An upload touches no file but the one that its first message
    names, whatever the stream and whatever fails; a stream that delivers
    no message touches no file at all. *)
Theorem upload_touches_one_file (stream : list recv_event) (w : World)
    (p : string) :
  match stream with
  | RecvMsg first :: _ => p ≠ FileUploadRequest.Filename first
  | _ => True
  end →
  files (upload stream w).2 !! p = files w !! p.
Proof.
  destruct stream as [| [first | e] rest]; intros Hp; [done | | done].
  rewrite upload_first.
  destruct (next_fault (os_faults w)); [done |].
  destruct (upload_loop_frame (fresh (dom (fds w)))
              (FileUploadRequest.Filename first) (RecvMsg first :: rest) 0
              (FileUploadRequest.Size first)
              (upload_opened (FileUploadRequest.Filename first) w) _
              (lookup_insert_eq _ _ _) eq_refl) as (Ho & _).
  rewrite (Ho p Hp). simpl. by rewrite lookup_insert_ne.
Qed.

Lemma upload_touches_one_file_witness :
  let stream := [RecvMsg (FileUploadRequest.mk "a" [Byte.x30] 1);
                 RecvMsg (FileUploadRequest.mk "b" [Byte.x31] 1)] in
  let w := mkWorld {[ "b" := [Byte.x41; Byte.x42] ]} ∅ [] [] [] [] [] in
  files (upload stream w).2 !! "b" = files w !! "b".
Proof.
  intros stream w. apply (upload_touches_one_file stream w "b"). discriminate.
Defined.

(** ** There and back *)

Lemma healthy_drop {A} (k : nat) (script : list (option A)) :
  healthy script → healthy (drop k script).
Proof. apply Forall_drop. Qed.

Lemma healthy_take {A} (k : nat) (script : list (option A)) :
  healthy script → healthy (take k script).
Proof. apply Forall_take. Qed.

(** X14. A file uploaded with its true size into a destination that is
    absent, or no longer than the file, and then downloaded from there,
    comes back byte for byte when nothing fails and no other process
    touches the file system: both sessions return success. *)
Theorem upload_then_download (first : FileUploadRequest.t)
    (more : list FileUploadRequest.t) (n : nat) (w : World) :
  let msgs := first :: more in
  let name := FileUploadRequest.Filename first in
  0 < n →
  healthy (os_faults w) →
  healthy (net_faults w) →
  interf w = [] →
  length (file_content w name) ≤ length (uploaded msgs) →
  FileUploadRequest.Size first = Z.of_nat (length (uploaded msgs)) →
  (Z.of_nat (length (uploaded msgs)) < 2 ^ 63)%Z →
  let '(r, w1) := upload (map RecvMsg msgs) w in
  let '(o, w2) := download n (FileDownloadRequest.mk name) w1 in
  r = None
  ∧ o = Returned None
  ∧ downloaded (new_events w1 w2) = uploaded msgs.
Proof.
  intros msgs name Hn Hos Hnet Hint Hold Hsize Hfit.
  destruct (upload_session_stores first more [] w
              (healthy_take _ _ Hos))
    as (w1 & tr & Hrun & (fl & _ & _ & _ & Hfile) & Hos1 & Hnet1 & Hint1 & _).
  rewrite app_nil_r in Hrun. fold msgs in Hrun. rewrite Hrun.
  change (upload_loop [] ?v w1) with (upload_eof v w1).
  unfold upload_eof, running. cbn [totalBytes expectedSize].
  rewrite received_wrap, int64_wrap_small, Hsize by lia.
  rewrite Z.eqb_refl. cbn [negb]. cbv iota.
  rewrite stream_SendAndClose_eq. cbv iota beta.
  fold name in Hfile. rewrite drop_ge, app_nil_r in Hfile by done.
  simpl in Hfile.
  set (w1' := log (set_net_faults w1 (tail (net_faults w1))) _).
  pose proof (download_quiescent n name (uploaded msgs) w1' Hn) as Hd.
  destruct (download n (FileDownloadRequest.mk name) w1') as [o w2].
  destruct Hd as (Ho & Hdl & _).
  - exact Hfile.
  - simpl. congruence.
  - simpl. rewrite Hos1. by apply healthy_drop.
  - simpl. rewrite Hnet1. by apply (healthy_tail _ Hnet).
  - split; [| done]. unfold next_send_result. rewrite Hnet1.
    by rewrite (proj1 (healthy_tail _ Hnet)).
Qed.

Lemma upload_then_download_witness :
  let first := FileUploadRequest.mk "a" [Byte.x30; Byte.x31; Byte.x32] 5 in
  let more := [FileUploadRequest.mk "" [Byte.x33; Byte.x34] 0] in
  let w := mkWorld {[ "a" := [Byte.x41] ]} ∅ [] [] [] [] [] in
  let msgs := first :: more in
  let '(r, w1) := upload (map RecvMsg msgs) w in
  let '(o, w2) := download 2 (FileDownloadRequest.mk "a") w1 in
  r = None
  ∧ o = Returned None
  ∧ downloaded (new_events w1 w2) = uploaded msgs.
Proof.
  intros first more w msgs.
  apply (upload_then_download first more 2 w).
  - lia.
  - by apply Forall_nil.
  - by apply Forall_nil.
  - reflexivity.
  - vm_compute. lia.
  - reflexivity.
  - reflexivity.
Defined.

(** ** The listener without TLS, the server, the command line *)

(** X15. With TLS disabled and the address bound, the listener builder
    returns the plain listener and ignores the certificate options: it
    reads no file and draws nothing from the random source, whatever
    paths are configured. *)
Theorem newListener_without_tls valid (addr : string) (opt : ServerOption)
    (w : World) :
  TLS opt = false →
  next_fault (os_faults w) = None →
  let '((lis, err), w') := newListener valid addr opt w in
  lis = Some (TCPListener addr)
  ∧ err = None
  ∧ new_events w w' = [EvListen addr]
  ∧ files w' = files w
  ∧ entropy w' = entropy w.
Proof.
  intros Htls Hflt. unfold newListener, net_Listen, next_os_fault. unfold_M.
  rewrite Hflt, Htls. cbn [negb fst snd].
  repeat split; try done. apply new_events_app. reflexivity.
Qed.

Lemma newListener_without_tls_witness :
  let opt := mkServerOption "0.0.0.0" 8022 false "cert.pem" "key.pem" in
  let w := mkWorld ∅ ∅ [] [] [] [] [] in
  let '((lis, err), w') :=
    newListener (λ _ _, true) "0.0.0.0:8022" opt w in
  lis = Some (TCPListener "0.0.0.0:8022")
  ∧ err = None
  ∧ new_events w w' = [EvListen "0.0.0.0:8022"]
  ∧ files w' = files w
  ∧ entropy w' = entropy w.
Proof.
  intros opt w.
  apply (newListener_without_tls (λ _ _, true) "0.0.0.0:8022" opt w);
    reflexivity.
Defined.

(** X16. When the address cannot be bound the server does not start,
    whatever its options: it returns the bind error wrapped twice, after
    the attempt to listen on "host:port" as its only call; no certificate
    is loaded or generated and nothing is served. *)
Theorem RunServer_bind_failure valid Serve (opt : ServerOption) (flt : fault)
    (w : World) :
  next_fault (os_faults w) = Some flt →
  RunServer valid Serve opt w
  = (Some (Errorf "failed to create listener"
             (Some (Errorf "failed to listen"
                      (Some (SysErr (fault_errno flt)))))),
     log (set_os_faults w (tail (os_faults w)))
         (EvListen (Listen opt +:+ ":" +:+ pretty (Port opt)))).
Proof.
  intros Hflt.
  unfold RunServer, newListener, net_Listen, next_os_fault. unfold_M.
  by rewrite Hflt.
Qed.

Lemma RunServer_bind_failure_witness :
  let opt := mkServerOption "localhost" 8022 true "" "" in
  let w := mkWorld ∅ ∅ [Some (FaultErr EADDRINUSE)] [] [] [[Byte.x01]] [] in
  RunServer (λ _ _, true) (λ _, mret None) opt w
  = (Some (Errorf "failed to create listener"
             (Some (Errorf "failed to listen" (Some (SysErr EADDRINUSE))))),
     log (set_os_faults w []) (EvListen "localhost:8022")).
Proof.
  intros opt w.
  etransitivity.
  - apply (RunServer_bind_failure (λ _ _, true) (λ _, mret None) opt
             (FaultErr EADDRINUSE) w).
    reflexivity.
  - vm_compute. reflexivity.
Defined.

(** X17. A server started from the command line never uses TLS: in server
    mode, whatever the other flags and arguments, [RunCLI] binds
    "host:port", serves on the plain listener, reads no certificate and
    calls no client; what it returns is what serving returns, wrapped when
    it is an error. *)
Theorem RunCLI_server_is_plain valid Serve (Client : Type) NewClient
    client_Shutdown client_Copy (cli : CLI.t) (w : World) :
  CLI.Server cli = true →
  next_fault (os_faults w) = None →
  RunCLI valid Serve Client NewClient client_Shutdown client_Copy cli w
  = let addr := CLI.Host cli +:+ ":" +:+ pretty (CLI.Port cli) in
    let level :=
      if CLI.Quiet cli then LevelWarn
      else if CLI.Debug cli then LevelDebug else LevelInfo in
    let '(err, w') :=
      Serve (Some (TCPListener addr))
            (log (set_os_faults w (tail (os_faults w))) (EvListen addr)) in
    ((level, (λ e, Errorf "failed to serve" (Some e)) <$> err), w').
Proof.
  intros Hserver Hflt.
  unfold RunCLI, RunServer, newListener, net_Listen, next_os_fault. unfold_M.
  rewrite Hserver. cbn [Listen Port TLS negb fst snd]. rewrite Hflt.
  destruct (Serve _ _) as [[e |] w']; reflexivity.
Qed.

Lemma RunCLI_server_is_plain_witness :
  let cli := CLI.mk "localhost" 8022 true false true true "a" "b" in
  let w := mkWorld ∅ ∅ [] [] [] [] [] in
  RunCLI (λ _ _, true) (λ _, mret None) unit (λ _, tt)
         (λ _, mret (Some io_EOF)) (λ _ _ _, mret (Some io_EOF)) cli w
  = ((LevelDebug, None),
     log (set_os_faults w []) (EvListen "localhost:8022")).
Proof.
  intros cli w.
  etransitivity.
  - apply (RunCLI_server_is_plain (λ _ _, true) (λ _, mret None) unit
             (λ _, tt) (λ _, mret (Some io_EOF)) (λ _ _ _, mret (Some io_EOF))
             cli w); reflexivity.
  - vm_compute. reflexivity.
Defined.

(** X18. Without the server flag and the kill flag, a command line that
    lacks the source or the destination is refused with the usage error:
    no client is made, nothing is bound, the world is left as it was. *)
Theorem RunCLI_usage_error valid Serve (Client : Type) NewClient
    client_Shutdown client_Copy (cli : CLI.t) (w : World) :
  CLI.Server cli = false →
  CLI.Kill cli = false →
  CLI.Src cli = "" ∨ CLI.Dest cli = "" →
  RunCLI valid Serve Client NewClient client_Shutdown client_Copy cli w
  = ((if CLI.Quiet cli then LevelWarn
      else if CLI.Debug cli then LevelDebug else LevelInfo,
      Some (Errorf "expected: grpcp <src> <dest> or grpcp --server" None)),
     w).
Proof.
  intros Hserver Hkill Hargs. unfold RunCLI. unfold_M.
  rewrite Hserver, Hkill.
  destruct Hargs as [-> | ->]; [reflexivity |].
  by destruct (bool_decide (CLI.Src cli = "")).
Qed.

Lemma RunCLI_usage_error_witness :
  let cli := CLI.mk "localhost" 8022 false true true false "a" "" in
  let w := mkWorld ∅ ∅ [] [] [] [] [] in
  RunCLI (λ _ _, true) (λ _, mret None) unit (λ _, tt)
         (λ _, mret None) (λ _ _ _, mret None) cli w
  = ((LevelWarn,
      Some (Errorf "expected: grpcp <src> <dest> or grpcp --server" None)),
     w).
Proof.
  intros cli w.
  apply (RunCLI_usage_error (λ _ _, true) (λ _, mret None) unit (λ _, tt)
           (λ _, mret None) (λ _ _ _, mret None) cli w);
    [reflexivity | reflexivity | by right].
Defined.

(** ** A buffer of no bytes *)

Lemma f_Read_empty_buffer (fh : nat) (w : World) (d : file_desc) :
  fds w !! fh = Some d →
  can_read (fd_flags d) = true →
  next_fault (os_faults w) = None →
  ∃ w1, f_Read fh 0 w = (([], None), w1)
        ∧ fds w1 !! fh = Some d
        ∧ os_faults w1 = tail (os_faults w)
        ∧ net_faults w1 = net_faults w
        ∧ trace w1 = trace w ++ [EvRead fh (ReadData [])].
Proof.
  intros Hfd Hr Hflt. unfold f_Read, next_os_fault.
  destruct (interfere_frame w) as (Hfds & Hos & Hnet & Htr & _).
  simpl. rewrite Hos, Hflt, Hfds, Hfd, Hr. cbn [negb]. rewrite take_0.
  eexists. split; [reflexivity |]. simpl.
  rewrite lookup_insert_eq, Nat.add_0_r, Hnet, Htr.
  by destruct d.
Qed.

(** X19. With [StreamBufferSize] set to 0 the loop of the download does
    not end by itself: as long as neither the file system nor the
    transport fails, every iteration reads no byte, sends a message with
    an empty chunk and goes round again, whatever the file holds. *)
Theorem download_empty_buffer_loops (req : FileDownloadRequest.t)
    (fh : nat) (size : Z) (d : file_desc) (fuel : nat) :
  can_read (fd_flags d) = true →
  ∀ total w,
    fds w !! fh = Some d →
    healthy (os_faults w) →
    healthy (net_faults w) →
    ∃ w' tr,
      download_loop 0 fuel req fh size total w = (Diverges, w')
      ∧ trace w' = trace w ++ tr
      ∧ sent tr
        = replicate fuel
            (FileDownloadResponse.mk "" (FileDownloadRequest.Filename req)
                                     [] size).
Proof.
  intros Hr. induction fuel as [| fuel IH]; intros total w Hfd Hos Hnet.
  { exists w, []. by rewrite app_nil_r. }
  apply healthy_tail in Hos as [Hflt Hos].
  apply healthy_tail in Hnet as [Hsend Hnet].
  destruct (f_Read_empty_buffer fh w d Hfd Hr Hflt)
    as (w1 & Hread & Hfd1 & Hos1 & Hnet1 & Htr1).
  simpl. unfold_M. rewrite Hread, stream_Send_eq.
  unfold next_send_result. rewrite Hnet1, Hsend. simpl fmap. cbv iota.
  set (m := FileDownloadResponse.mk "" (FileDownloadRequest.Filename req)
              [] size).
  destruct (IH (int64_add total (int64_of_int (length (@nil byte))))
               (log (set_net_faults w1 (tail (net_faults w))) (EvSend m)))
    as (w' & tr & Hrun & Htr & Hsent).
  - exact Hfd1.
  - simpl. by rewrite Hos1.
  - exact Hnet.
  - exists w', (EvRead fh (ReadData []) :: EvSend m :: tr).
    split; [exact Hrun |].
    split. { rewrite Htr. simpl. by rewrite Htr1, <- !app_assoc. }
    change (sent (?a :: ?b :: tr)) with (m :: sent tr). by rewrite Hsent.
Qed.

Lemma download_empty_buffer_loops_witness :
  let req := FileDownloadRequest.mk "a" in
  let d := FileDesc "a" O_RDONLY 0 in
  let w := mkWorld {[ "a" := [Byte.x41] ]} {[ 3 := d ]} [] [] [] [] [] in
  ∃ w' tr,
    download_loop 0 5 req 3 1 0 w = (Diverges, w')
    ∧ trace w' = trace w ++ tr
    ∧ sent tr = replicate 5 (FileDownloadResponse.mk "" "a" [] 1).
Proof.
  intros req d w.
  apply (download_empty_buffer_loops req 3 1 d 5 eq_refl 0 w);
    [reflexivity | constructor | constructor].
Defined.
